(** * websocket-proxy-sniffer: the hijack tap of [main.go]

    A shallow embedding of [TeeConn], [CallbackHijacker], [callbackHijacker.Hijack]
    and [sniffer.ServeHTTP], together with the pieces of Go's [io] package they
    are built from ([io.TeeReader], [io.MultiWriter], [io.Pipe]).

    The code under study only composes calls on objects it does not own: the
    real connection, the response writer handed in by the HTTP server, the
    observer callback, the goroutine reading the pipes.  Those calls are the
    constructors of [event]; a program is a tree of such calls ([Prog]); the
    behaviour of the outside world is an arbitrary deterministic responder
    ([respond], over an arbitrary state), and [run] executes a program against
    it, recording every call with its answer in a trace.  A call that never
    returns (a blocked pipe, a blocked socket) is answered [None]. *)

From Stdlib Require Import ZArith List Lia Strings.Byte.
From stdpp Require Import base list.

Set Implicit Arguments.
Set Default Proof Using "Type".

(** ** Values *)

Definition bytes := list Byte.byte.

(** Go's [len(p)] as an [int]. *)
Definition len (p : bytes) : Z := Z.of_nat (length p).

(** [p[:n]] for a count [n] reported by a Read or a Write. *)
Definition upto (n : Z) (p : bytes) : bytes := firstn (Z.to_nat n) p.

(** The non-nil values of Go's [error] that matter here; [error] itself is
    [option errval], [None] being [nil]. *)
Inductive errval :=
| EOF
| ErrShortWrite
| ErrClosedPipe
| ErrOther (code : nat).

Abbreviation error := (option errval).

Module net.
(** A [net.Conn] implemented outside this repository, known by its handle. *)
Definition Conn := nat.
Definition Addr := nat.
End net.

Definition Time := Z.
Definition Request := nat.        (* *http.Request *)
Definition Header := nat.         (* http.Header *)
Definition ReadWriter := nat.     (* *bufio.ReadWriter *)
Definition OnHijacked := nat.     (* the callback, a function value *)

Module io.

(** The write end of a pipe, or any other [io.Writer] implemented outside. *)
Inductive Sink :=
| PipeWriter (p : nat)
| ExtWriter (h : nat).

Inductive Writer :=
| ConnW (c : net.Conn)
| SinkW (s : Sink).

(** The read end of a pipe, the only [io.Reader] handed out here. *)
Inductive Reader :=
| PipeReader (p : nat).

(** [type teeReader struct { r Reader; w Writer }] *)
Record teeReader := { r : net.Conn; w : Sink }.

Definition TeeReader (r0 : net.Conn) (w0 : Sink) : teeReader :=
  {| r := r0; w := w0 |}.

(** [type multiWriter struct { writers []Writer }] *)
Record multiWriter := { writers : list Writer }.

(** [MultiWriter] splices in the writers of an argument that is itself a
    [*multiWriter]; no value of [Writer] is one, so the list is kept. *)
Definition MultiWriter (ws : list Writer) : multiWriter :=
  {| writers := ws |}.

(** [type pipe struct]: [done] is closed or not, [rerr] and [werr] are the
    two [onceError] cells. *)
Record pipe := { done : bool; rerr : error; werr : error }.

(** [io.Pipe()]: an open pipe, no error stored. *)
Definition new_pipe : pipe := {| done := false; rerr := None; werr := None |}.

(** [onceError.Store]: only the first non-nil error is kept. *)
Definition Store (cell : error) (e : error) : error :=
  match cell with
  | Some _ => cell
  | None => e
  end.

Definition readCloseError (p : pipe) : errval :=
  match rerr p, werr p with
  | None, Some e => e
  | _, _ => ErrClosedPipe
  end.

Definition writeCloseError (p : pipe) : errval :=
  match werr p, rerr p with
  | None, Some e => e
  | _, _ => ErrClosedPipe
  end.

Definition closeRead (p : pipe) (e : error) : pipe :=
  let e' := match e with None => Some ErrClosedPipe | Some _ => e end in
  {| done := true; rerr := Store (rerr p) e'; werr := werr p |}.

Definition closeWrite (p : pipe) (e : error) : pipe :=
  let e' := match e with None => Some EOF | Some _ => e end in
  {| done := true; rerr := rerr p; werr := Store (werr p) e' |}.

(** What the goroutine at the read end does while one [write] is in
    progress: it takes every byte, or it takes [k] bytes and then closes
    the read end with [e].  (That it never comes is the answer [None].) *)
Inductive drain :=
| Drained
| ReadClosed (k : nat) (e : error).

(** [pipe.write(b)].  A closed pipe refuses at once.  Otherwise the loop
    hands [b] to the reader until it is empty or [done] is closed. *)
Definition write (p : pipe) (b : bytes) (d : option drain)
  : option (Z * error) * pipe :=
  if done p then (Some (0%Z, Some (writeCloseError p)), p)
  else match d with
       | None => (None, p)
       | Some Drained => (Some (len b, None), p)
       | Some (ReadClosed k e) =>
           let p' := closeRead p e in
           if (k <? length b) || (length b =? 0)
           then (Some (Z.of_nat (k `min` length b), Some (writeCloseError p')), p')
           else (Some (len b, None), p')
       end.

(** [pipe.read(b)] with [len(b) = n]: a closed pipe answers with its close
    error; an open one waits for a writer, [pending] being the slice of a
    write in progress, if any. *)
Definition read (p : pipe) (pending : option bytes) (n : nat)
  : option (bytes * error) :=
  if done p then Some ([], Some (readCloseError p))
  else match pending with
       | Some bw => Some (firstn n bw, None)
       | None => None
       end.

End io.

(** ** Calls on the outside world *)

Inductive event : Type -> Type :=
(* the methods of the real net.Conn *)
| Conn_Read (c : net.Conn) (n : nat) : event (bytes * error)
| Conn_Write (c : net.Conn) (p : bytes) : event (Z * error)
| Conn_Close (c : net.Conn) : event error
| Conn_LocalAddr (c : net.Conn) : event net.Addr
| Conn_RemoteAddr (c : net.Conn) : event net.Addr
| Conn_SetDeadline (c : net.Conn) (t : Time) : event error
| Conn_SetReadDeadline (c : net.Conn) (t : Time) : event error
| Conn_SetWriteDeadline (c : net.Conn) (t : Time) : event error
(* an io.Writer implemented outside *)
| Ext_Write (h : nat) (p : bytes) : event (Z * error)
(* io.Pipe and its two ends *)
| Pipe_New : event nat
| Pipe_Write (id : nat) (p : bytes) : event (Z * error)
| Pipe_Read (id : nat) (n : nat) : event (bytes * error)
| Pipe_CloseWrite (id : nat) (e : error) : event error   (* PipeWriter.CloseWithError *)
| Pipe_CloseRead (id : nat) (e : error) : event error    (* PipeReader.CloseWithError *)
(* asked of the world only: what the read end does during a pipe write *)
| Pipe_Consume (id : nat) (p : bytes) : event io.drain
(* the http.ResponseWriter of the server, and its Hijack when it has one *)
| RW_Header (w : nat) : event Header
| RW_Write (w : nat) (p : bytes) : event (Z * error)
| RW_WriteHeader (w : nat) (code : Z) : event unit
| RW_Hijack (w : nat) : event (net.Conn * ReadWriter * error)
(* calling the OnHijacked function value *)
| Call_OnHijacked (cb : OnHijacked) (r : Request) (rin rout : io.Reader)
  : event unit.

(** ** Programs *)

Inductive Prog (E : Type -> Type) (A : Type) : Type :=
| Ret (a : A)
| Vis (X : Type) (e : E X) (k : X -> Prog E A).

Arguments Ret {E A} a.
Arguments Vis {E A X} e k.

Fixpoint bind {E : Type -> Type} {A B : Type}
  (m : Prog E A) (f : A -> Prog E B) : Prog E B :=
  match m with
  | Ret a => f a
  | Vis e k => Vis e (fun x => bind (k x) f)
  end.

Definition trigger {E : Type -> Type} {X : Type} (e : E X) : Prog E X :=
  Vis e (fun x => Ret x).

Notation "'let*' x ':=' m 'in' k" := (bind m (fun x => k))
  (at level 10, x binder, m at level 200, k at level 200).

(** ** The [io] methods used by the wrapper *)

Definition Sink_Write (s : io.Sink) (p : bytes) : event (Z * error) :=
  match s with
  | io.PipeWriter id => Pipe_Write id p
  | io.ExtWriter h => Ext_Write h p
  end.

Definition Writer_Write (w : io.Writer) (p : bytes) : event (Z * error) :=
  match w with
  | io.ConnW c => Conn_Write c p
  | io.SinkW s => Sink_Write s p
  end.

(** What a Read hands back: the bytes the underlying Read put at the front
    of [p], and the two results [n] and [err]. *)
Record read_result := { filled : bytes; n_read : Z; err_read : error }.

(** [[
func (t *teeReader) Read(p []byte) (n int, err error) {
	n, err = t.r.Read(p)
	if n > 0 {
		if n, err := t.w.Write(p[:n]); err != nil {
			return n, err
		}
	}
	return
}
]]
    The underlying Read answers with the bytes it read; its [n] is their
    number (the [io.Reader] contract, [0 <= n <= len(p)]), so [p[:n]] is
    that list. *)
Definition teeReader_Read (t : io.teeReader) (size : nat) : Prog event read_result :=
  let* '(data, err) := trigger (Conn_Read (io.r t) size) in
  let n := len data in
  if (0 <? n)%Z then
    let* '(n', err') := trigger (Sink_Write (io.w t) data) in
    match err' with
    | Some _ => Ret {| filled := data; n_read := n'; err_read := err' |}
    | None => Ret {| filled := data; n_read := n; err_read := err |}
    end
  else Ret {| filled := data; n_read := n; err_read := err |}.

(** [[
func (t *multiWriter) Write(p []byte) (n int, err error) {
	for _, w := range t.writers {
		n, err = w.Write(p)
		if err != nil {
			return
		}
		if n != len(p) {
			err = ErrShortWrite
			return
		}
	}
	return len(p), nil
}
]] *)
Fixpoint multiWriter_range (ws : list io.Writer) (p : bytes) : Prog event (Z * error) :=
  match ws with
  | [] => Ret (len p, None)
  | w :: rest =>
      let* '(n, err) := trigger (Writer_Write w p) in
      match err with
      | Some _ => Ret (n, err)
      | None =>
          if (n =? len p)%Z then multiWriter_range rest p
          else Ret (n, Some ErrShortWrite)
      end
  end.

Definition multiWriter_Write (t : io.multiWriter) (p : bytes) : Prog event (Z * error) :=
  multiWriter_range (io.writers t) p.

(** ** main.go *)

(** [[
type teeConn struct {
	net.Conn
	reader io.Reader
	writer io.Writer
}
]]
    The two interface fields only ever hold what [TeeConn] puts there. *)
Record teeConn := {
  Conn : net.Conn;
  reader : io.teeReader;
  writer : io.multiWriter
}.

(** [[
func TeeConn(conn net.Conn, in, out io.Writer) net.Conn {
	return &teeConn{
		Conn:   conn,
		reader: io.TeeReader(conn, in),
		writer: io.MultiWriter(conn, out),
	}
}
]]
    [in] and [out] are sinks: pipe write ends, or writers from outside. *)
Definition TeeConn (conn : net.Conn) (in_ out : io.Sink) : teeConn :=
  {| Conn := conn;
     reader := io.TeeReader conn in_;
     writer := io.MultiWriter [io.ConnW conn; io.SinkW out] |}.

(** [func (c *teeConn) Read(p []byte) (n int, err error) { return c.reader.Read(p) }] *)
Definition teeConn_Read (c : teeConn) (size : nat) : Prog event read_result :=
  teeReader_Read (reader c) size.

(** [func (c *teeConn) Write(p []byte) (n int, err error) { return c.writer.Write(p) }] *)
Definition teeConn_Write (c : teeConn) (p : bytes) : Prog event (Z * error) :=
  multiWriter_Write (writer c) p.

(** The methods promoted from the embedded [net.Conn]. *)
Definition teeConn_Close (c : teeConn) : Prog event error :=
  trigger (Conn_Close (Conn c)).
Definition teeConn_LocalAddr (c : teeConn) : Prog event net.Addr :=
  trigger (Conn_LocalAddr (Conn c)).
Definition teeConn_RemoteAddr (c : teeConn) : Prog event net.Addr :=
  trigger (Conn_RemoteAddr (Conn c)).
Definition teeConn_SetDeadline (c : teeConn) (t : Time) : Prog event error :=
  trigger (Conn_SetDeadline (Conn c) t).
Definition teeConn_SetReadDeadline (c : teeConn) (t : Time) : Prog event error :=
  trigger (Conn_SetReadDeadline (Conn c) t).
Definition teeConn_SetWriteDeadline (c : teeConn) (t : Time) : Prog event error :=
  trigger (Conn_SetWriteDeadline (Conn c) t).

(** An [http.ResponseWriter] supplied by the server: its handle, and whether
    its dynamic type has a [Hijack] method. *)
Record ServerWriter := { handle : nat; hijackable : bool }.

(** [[
type callbackHijacker struct {
	http.ResponseWriter
	hijacker http.Hijacker
	request  *http.Request
	callback OnHijacked
}
]] *)
Record callbackHijacker := {
  ResponseWriter : ServerWriter;
  hijacker : nat;
  request : Request;
  callback : OnHijacked
}.

(** The values of type [http.ResponseWriter] a handler can be given. *)
Inductive Writer_value :=
| Plain (w : ServerWriter)
| Adapted (h : callbackHijacker).

(** [_, ok := w.(http.Hijacker)]: [*callbackHijacker] has the method. *)
Definition is_Hijacker (w : Writer_value) : bool :=
  match w with
  | Plain w0 => hijackable w0
  | Adapted _ => true
  end.

(** [[
func CallbackHijacker(w http.ResponseWriter, r *http.Request,
	cb OnHijacked) http.ResponseWriter {
	if h, ok := w.(http.Hijacker); ok {
		w = &callbackHijacker{
			ResponseWriter: w,
			hijacker:       h,
			request:        r,
			callback:       cb,
		}
	}
	return w
}
]] *)
Definition CallbackHijacker (w : ServerWriter) (r : Request) (cb : OnHijacked)
  : Writer_value :=
  if hijackable w then
    Adapted {| ResponseWriter := w; hijacker := handle w;
               request := r; callback := cb |}
  else Plain w.

(** The values of type [net.Conn] a handler can get out of [Hijack]. *)
Inductive Conn_value :=
| Raw (c : net.Conn)
| Tee (c : teeConn).

(** [[
func (h *callbackHijacker) Hijack() (net.Conn, *bufio.ReadWriter, error) {
	conn, buf, err := h.hijacker.Hijack()
	if err != nil {
		return conn, buf, err
	}
	rIn, wIn := io.Pipe()
	rOut, wOut := io.Pipe()
	h.callback(h.request, rIn, rOut)
	return TeeConn(conn, wIn, wOut), buf, nil
}
]] *)
Definition callbackHijacker_Hijack (h : callbackHijacker)
  : Prog event (Conn_value * ReadWriter * error) :=
  let* '(conn, buf, err) := trigger (RW_Hijack (hijacker h)) in
  match err with
  | Some _ => Ret (Raw conn, buf, err)
  | None =>
      let* pIn := trigger Pipe_New in
      let* pOut := trigger Pipe_New in
      let* _ := trigger (Call_OnHijacked (callback h) (request h)
                           (io.PipeReader pIn) (io.PipeReader pOut)) in
      Ret (Tee (TeeConn conn (io.PipeWriter pIn) (io.PipeWriter pOut)), buf, None)
  end.

(** ** Handlers

    An [http.Handler] is code of someone else that is given a response writer
    and a request.  What it does with them is a program over the methods of
    [http.ResponseWriter], the hijack of the writer when the writer has one,
    and the methods of the connection a hijack gave it.  Other optional
    interfaces a writer may have ([http.Flusher] and the like) are not part
    of this vocabulary. *)

Inductive hcall : Type -> Type :=
| W_Header : hcall Header
| W_Write (p : bytes) : hcall (Z * error)
| W_WriteHeader (code : Z) : hcall unit
(* [if hj, ok := w.(http.Hijacker); ok { hj.Hijack() }]; [None] when not ok *)
| W_Hijack : hcall (option (Conn_value * ReadWriter * error))
| C_Read (c : Conn_value) (size : nat) : hcall read_result
| C_Write (c : Conn_value) (p : bytes) : hcall (Z * error)
| C_Close (c : Conn_value) : hcall error.

Definition Handler := Request -> Prog hcall unit.

Definition Conn_value_Read (c : Conn_value) (size : nat) : Prog event read_result :=
  match c with
  | Raw c0 =>
      let* '(data, err) := trigger (Conn_Read c0 size) in
      Ret {| filled := data; n_read := len data; err_read := err |}
  | Tee t => teeConn_Read t size
  end.

Definition Conn_value_Write (c : Conn_value) (p : bytes) : Prog event (Z * error) :=
  match c with
  | Raw c0 => trigger (Conn_Write c0 p)
  | Tee t => teeConn_Write t p
  end.

Definition Conn_value_Close (c : Conn_value) : Prog event error :=
  match c with
  | Raw c0 => trigger (Conn_Close c0)
  | Tee t => teeConn_Close t
  end.

(** Method dispatch on the writer the handler holds.  [*callbackHijacker]
    gets [Header], [Write] and [WriteHeader] from its embedded
    [http.ResponseWriter] and defines [Hijack] itself. *)
Definition dispatch (w : Writer_value) {X : Type} (c : hcall X) : Prog event X :=
  match c in hcall X return Prog event X with
  | W_Header =>
      match w with
      | Plain w0 => trigger (RW_Header (handle w0))
      | Adapted h => trigger (RW_Header (handle (ResponseWriter h)))
      end
  | W_Write p =>
      match w with
      | Plain w0 => trigger (RW_Write (handle w0) p)
      | Adapted h => trigger (RW_Write (handle (ResponseWriter h)) p)
      end
  | W_WriteHeader code =>
      match w with
      | Plain w0 => trigger (RW_WriteHeader (handle w0) code)
      | Adapted h => trigger (RW_WriteHeader (handle (ResponseWriter h)) code)
      end
  | W_Hijack =>
      match w with
      | Plain w0 =>
          if hijackable w0 then
            let* '(conn, buf, err) := trigger (RW_Hijack (handle w0)) in
            Ret (Some (Raw conn, buf, err))
          else Ret None
      | Adapted h =>
          let* res := callbackHijacker_Hijack h in Ret (Some res)
      end
  | C_Read c size => Conn_value_Read c size
  | C_Write c p => Conn_value_Write c p
  | C_Close c => Conn_value_Close c
  end.

(** The handler's program, run on the writer [w]. *)
Fixpoint serve (w : Writer_value) {A : Type} (h : Prog hcall A) : Prog event A :=
  match h with
  | Ret a => Ret a
  | Vis c k => let* x := dispatch w c in serve w (k x)
  end.

(** [[
type sniffer struct {
	handler  http.Handler
	callback OnHijacked
}
]] *)
Record sniffer := { handler : Handler; sniffer_callback : OnHijacked }.

Definition Sniffer (h : Handler) (cb : OnHijacked) : sniffer :=
  {| handler := h; sniffer_callback := cb |}.

(** [[
func (s *sniffer) ServeHTTP(w http.ResponseWriter, r *http.Request) {
	w = CallbackHijacker(w, r, s.callback)
	s.handler.ServeHTTP(w, r)
}
]] *)
Definition sniffer_ServeHTTP (s : sniffer) (w : ServerWriter) (r : Request)
  : Prog event unit :=
  let w' := CallbackHijacker w r (sniffer_callback s) in
  serve w' (handler s r).

(** ** Running a program *)

(** One call and its answer ([None]: the call did not return). *)
Inductive entry :=
| Entry {X : Type} (e : event X) (x : option X).

Section Semantics.

Context {E : Type}.
Variable respond : forall X : Type, event X -> E -> option X * E.

(** The pipes made by [io.Pipe], by order of creation, and the state of
    everything else. *)
Record World := { pipes : list io.pipe; outside : E }.

Definition step {X : Type} (e : event X) (s : World) : option X * World :=
  match e in event X return option X * World with
  | Pipe_New =>
      (Some (length (pipes s)),
       {| pipes := pipes s ++ [io.new_pipe]; outside := outside s |})
  | Pipe_Write id p =>
      match pipes s !! id with
      | None => (None, s)
      | Some ps =>
          let '(d, o) :=
            if io.done ps then (None, outside s)
            else respond (Pipe_Consume id p) (outside s) in
          let '(x, ps') := io.write ps p d in
          (x, {| pipes := <[id := ps']> (pipes s); outside := o |})
      end
  | Pipe_Read id n =>
      match pipes s !! id with
      | None => (None, s)
      | Some ps => (io.read ps None n, s)
      end
  | Pipe_CloseWrite id e =>
      match pipes s !! id with
      | None => (None, s)
      | Some ps =>
          (Some None,
           {| pipes := <[id := io.closeWrite ps e]> (pipes s);
              outside := outside s |})
      end
  | Pipe_CloseRead id e =>
      match pipes s !! id with
      | None => (None, s)
      | Some ps =>
          (Some None,
           {| pipes := <[id := io.closeRead ps e]> (pipes s);
              outside := outside s |})
      end
  | e' =>
      let '(x, o) := respond e' (outside s) in
      (x, {| pipes := pipes s; outside := o |})
  end.

Record Result (A : Type) := {
  outcome : option A;
  final : World;
  trace : list entry
}.

Fixpoint run {A : Type} (m : Prog event A) (s : World) : Result A :=
  match m with
  | Ret a => {| outcome := Some a; final := s; trace := [] |}
  | Vis e k =>
      let '(x, s') := step e s in
      match x with
      | None => {| outcome := None; final := s'; trace := [Entry e None] |}
      | Some v =>
          let r := run (k v) s' in
          {| outcome := outcome r; final := final r;
             trace := Entry e (Some v) :: trace r |}
      end
  end.

(** Whether the handler's program [h], run on the writer [w] from the world
    [s], comes to ask the writer for a hijack. *)
Definition is_hijack_call {X : Type} (c : hcall X) : bool :=
  match c with
  | W_Hijack => true
  | _ => false
  end.


End Semantics.

Arguments World E : clear implicits.
Arguments Result E A : clear implicits.

(** ** What a trace shows *)

#[global] Instance Sink_eq_dec : EqDecision io.Sink.
Proof. solve_decision. Defined.

(** The bytes one call made cross the real socket towards the handler: what
    a Read of [conn] returned. *)
Definition received (conn : net.Conn) (t : entry) : bytes :=
  match t with
  | Entry e x =>
      match e in event X return option X -> bytes with
      | Conn_Read c _ => fun x =>
          match x with
          | Some (data, _) => if decide (c = conn) then data else []
          | None => []
          end
      | _ => fun _ => []
      end x
  end.

(** The bytes one call made cross the real socket away from the handler:
    the first [n] bytes of a Write of [conn] that reported [n]. *)
Definition transmitted (conn : net.Conn) (t : entry) : bytes :=
  match t with
  | Entry e x =>
      match e in event X return option X -> bytes with
      | Conn_Write c p => fun x =>
          match x with
          | Some (n, _) => if decide (c = conn) then upto n p else []
          | None => []
          end
      | _ => fun _ => []
      end x
  end.

(** The bytes one call delivered to the sink [s]: the first [n] bytes of a
    Write of [s] that reported [n]. *)
Definition delivered (s : io.Sink) (t : entry) : bytes :=
  match t with
  | Entry e x =>
      match e in event X return option X -> bytes with
      | Pipe_Write id p => fun x =>
          match x with
          | Some (n, _) => if decide (s = io.PipeWriter id) then upto n p else []
          | None => []
          end
      | Ext_Write h p => fun x =>
          match x with
          | Some (n, _) => if decide (s = io.ExtWriter h) then upto n p else []
          | None => []
          end
      | _ => fun _ => []
      end x
  end.

(** The slice one call handed to [s.Write], whatever became of it. *)
Definition offered (s : io.Sink) (t : entry) : bytes :=
  match t with
  | Entry e _ =>
      match e with
      | Pipe_Write id p => if decide (s = io.PipeWriter id) then p else []
      | Ext_Write h p => if decide (s = io.ExtWriter h) then p else []
      | _ => []
      end
  end.

Definition wire_in (conn : net.Conn) (tr : list entry) : bytes :=
  flat_map (received conn) tr.
Definition wire_out (conn : net.Conn) (tr : list entry) : bytes :=
  flat_map (transmitted conn) tr.
Definition sunk (s : io.Sink) (tr : list entry) : bytes :=
  flat_map (delivered s) tr.
Definition handed (s : io.Sink) (tr : list entry) : bytes :=
  flat_map (offered s) tr.

(** Kinds of calls. *)
Definition calls_back {X : Type} (e : event X) : bool :=
  match e with
  | Call_OnHijacked _ _ _ _ => true
  | _ => false
  end.

Definition makes_pipe {X : Type} (e : event X) : bool :=
  match e with
  | Pipe_New => true
  | _ => false
  end.

Definition closes_pipe {X : Type} (e : event X) : bool :=
  match e with
  | Pipe_CloseWrite _ _ | Pipe_CloseRead _ _ => true
  | _ => false
  end.

Definition writes_sink {X : Type} (e : event X) : bool :=
  match e with
  | Pipe_Write _ _ | Ext_Write _ _ => true
  | _ => false
  end.

(** Bytes read from or written to a socket, a pipe or an outside writer. *)
Definition moves_bytes {X : Type} (e : event X) : bool :=
  match e with
  | Conn_Read _ _ | Conn_Write _ _ | Pipe_Write _ _ | Ext_Write _ _
  | Pipe_Read _ _ => true
  | _ => false
  end.

(** Neither a callback, nor a new pipe, nor the closing of one: what is left
    when no tap is being installed or torn down. *)
Definition untapped {X : Type} (e : event X) : bool :=
  negb (calls_back e) && negb (makes_pipe e) && negb (closes_pipe e).

Definition on_call (P : forall X : Type, event X -> bool) (t : entry) : bool :=
  match t with
  | Entry e _ => P _ e
  end.

Definition count_calls (P : forall X : Type, event X -> bool) (tr : list entry) : nat :=
  length (filter (fun t => on_call P t = true) tr).

(** Every call a program can make, on any branch, satisfies [P]. *)
Inductive only (P : forall X : Type, event X -> bool) {A : Type}
  : Prog event A -> Prop :=
| only_Ret (a : A) : only P (Ret a)
| only_Vis (X : Type) (e : event X) (k : X -> Prog event A) :
    P X e = true -> (forall x : X, only P (k x)) -> only P (Vis e k).


(** A Write of the socket took nothing or took the whole slice without an
    error; a Write of a sink returned and took the whole slice. *)
Definition clean (t : entry) : bool :=
  match t with
  | Entry e x =>
      match e in event X return option X -> bool with
      | Conn_Write _ p => fun x =>
          match x with
          | Some (n, err) =>
              (n <=? 0)%Z || ((n =? len p)%Z && bool_decide (err = None))
          | None => true
          end
      | Pipe_Write _ p | Ext_Write _ p => fun x =>
          match x with
          | Some (n, _) => (len p <=? n)%Z
          | None => false
          end
      | _ => fun _ => true
      end x
  end.

(** ** Sessions on a wrapped connection *)

Inductive connop :=
| Op_Read (size : nat)
| Op_Write (p : bytes)
| Op_Close
| Op_LocalAddr
| Op_RemoteAddr
| Op_SetDeadline (t : Time)
| Op_SetReadDeadline (t : Time)
| Op_SetWriteDeadline (t : Time).

Definition teeConn_call (c : teeConn) (op : connop) : Prog event unit :=
  match op with
  | Op_Read size => let* _ := teeConn_Read c size in Ret tt
  | Op_Write p => let* _ := teeConn_Write c p in Ret tt
  | Op_Close => let* _ := teeConn_Close c in Ret tt
  | Op_LocalAddr => let* _ := teeConn_LocalAddr c in Ret tt
  | Op_RemoteAddr => let* _ := teeConn_RemoteAddr c in Ret tt
  | Op_SetDeadline t => let* _ := teeConn_SetDeadline c t in Ret tt
  | Op_SetReadDeadline t => let* _ := teeConn_SetReadDeadline c t in Ret tt
  | Op_SetWriteDeadline t => let* _ := teeConn_SetWriteDeadline c t in Ret tt
  end.

Fixpoint session (c : teeConn) (ops : list connop) : Prog event unit :=
  match ops with
  | [] => Ret tt
  | op :: rest => let* _ := teeConn_call c op in session c rest
  end.


(** ** A scripted outside world, for concrete runs *)

(** How a scripted writer answers [Write(p)]. *)
Inductive policy :=
| Whole                        (* len(p), nil *)
| Short (n : Z)                (* n, nil *)
| Fail (n : Z) (e : errval).   (* n, e *)

Definition answer (pol : policy) (p : bytes) : Z * error :=
  match pol with
  | Whole => (len p, None)
  | Short n => (n, None)
  | Fail n e => (n, Some e)
  end.

Record script := {
  incoming : list (bytes * error);   (* what the successive socket Reads return *)
  socket_write : policy;             (* how the socket answers a Write *)
  ext_write : policy;                (* how an outside io.Writer answers *)
  consumer : option io.drain;        (* what the pipe readers do *)
  hijack : net.Conn * ReadWriter * error
}.

Definition scripted (X : Type) (e : event X) (s : script) : option X * script :=
  match e in event X return option X * script with
  | Conn_Read _ size =>
      match incoming s with
      | [] => (Some ([], Some EOF), s)
      | (data, err) :: rest =>
          (Some (firstn size data, err),
           {| incoming := rest; socket_write := socket_write s;
              ext_write := ext_write s; consumer := consumer s;
              hijack := hijack s |})
      end
  | Conn_Write _ p => (Some (answer (socket_write s) p), s)
  | Conn_Close _ => (Some None, s)
  | Conn_LocalAddr c => (Some c, s)
  | Conn_RemoteAddr c => (Some (S c), s)
  | Conn_SetDeadline _ _ => (Some None, s)
  | Conn_SetReadDeadline _ _ => (Some None, s)
  | Conn_SetWriteDeadline _ _ => (Some None, s)
  | Ext_Write _ p => (Some (answer (ext_write s) p), s)
  | Pipe_New => (None, s)
  | Pipe_Write _ _ => (None, s)
  | Pipe_Read _ _ => (None, s)
  | Pipe_CloseWrite _ _ => (None, s)
  | Pipe_CloseRead _ _ => (None, s)
  | Pipe_Consume _ _ => (consumer s, s)
  | RW_Header w => (Some w, s)
  | RW_Write _ p => (Some (len p, None), s)
  | RW_WriteHeader _ _ => (Some tt, s)
  | RW_Hijack _ => (Some (hijack s), s)
  | Call_OnHijacked _ _ _ _ => (Some tt, s)
  end.

(** A socket that delivers "HI" and takes what it is given, readers that
    keep up, a hijack that succeeds with connection 7. *)
Definition calm : script :=
  {| incoming := [(["H"; "I"]%byte, None)];
     socket_write := Whole; ext_write := Whole;
     consumer := Some io.Drained;
     hijack := (7, 0, None) |}.

Definition start (s : script) : World script := {| pipes := []; outside := s |}.

(** The adapter of request 11 around a hijackable writer 3, callback 5, and
    the wrapper its hijack returns in [calm]. *)
Definition adapter0 : callbackHijacker :=
  {| ResponseWriter := {| handle := 3; hijackable := true |};
     hijacker := 3; request := 11; callback := 5 |}.

Definition tee0 : teeConn := TeeConn 7 (io.PipeWriter 0) (io.PipeWriter 1).

(** The world right after a successful hijack: two open pipes. *)
Definition hijacked (s : script) : World script :=
  {| pipes := [io.new_pipe; io.new_pipe]; outside := s |}.

(** A socket that takes one byte of each Write and says so. *)
Definition short_socket : script :=
  {| incoming := []; socket_write := Short 1; ext_write := Whole;
     consumer := Some io.Drained; hijack := (7, 0, None) |}.

(** An observer that closes its read ends instead of reading. *)
Definition deaf_observer : script :=
  {| incoming := [(["H"; "I"]%byte, None)];
     socket_write := Whole; ext_write := Whole;
     consumer := Some (io.ReadClosed 0 None); hijack := (7, 0, None) |}.



(** A server whose Hijack fails. *)
Definition no_hijack : script :=
  {| incoming := []; socket_write := Whole; ext_write := Whole;
     consumer := Some io.Drained; hijack := (0, 0, Some (ErrOther 1)) |}.

(** A socket whose Reads return nothing, then one byte, then one byte. *)
Definition trickle : script :=
  {| incoming := [([], None); (["H"]%byte, None); (["I"]%byte, None)];
     socket_write := Whole; ext_write := Whole;
     consumer := Some io.Drained; hijack := (7, 0, None) |}.

(** A server writer without [Hijack], and one with. *)
Definition bare_writer : ServerWriter := {| handle := 3; hijackable := false |}.
Definition full_writer : ServerWriter := {| handle := 3; hijackable := true |}.


(** ** The observer of [main]

    [main] passes [Sniffer] a callback that starts two goroutines, each
    running [readLoop] on one read end.  Besides calls on the world, that
    code writes to the log and executes [go] statements. *)

(** One line handed to the logger. *)
Inductive line :=
| Println (e : errval)                                  (* log.Println(err) *)
| Printf (dir : bytes) (req : Request) (data : bytes).  (* log.Printf("%s %s: %x\n", dir, req.RemoteAddr, data) *)

(** The [io.Reader] values [readLoop] can be given: a read end of a pipe,
    as in [main], or any reader from outside, here a connection. *)
Inductive source :=
| PipeSource (r : io.Reader)
| ConnSource (c : net.Conn).

Definition source_Read (r : source) (n : nat) : event (bytes * error) :=
  match r with
  | PipeSource (io.PipeReader id) => Pipe_Read id n
  | ConnSource c => Conn_Read c n
  end.

Inductive ocall : Type -> Type :=
| World_call {X : Type} (e : event X) : ocall X
| log_Println (e : errval) : ocall unit
| log_Printf (dir : bytes) (req : Request) (data : bytes) : ocall unit
(* [go readLoop(req, r, dir)] *)
| go_readLoop (req : Request) (r : io.Reader) (dir : bytes) : ocall unit.

(** [[
func readLoop(req *http.Request, r io.Reader, dir string) {
	data := make([]byte, 1024)
	for {
		n, err := r.Read(data)
		if err != nil {
			log.Println(err)
			return
		}
		log.Printf("%s %s: %x\n", dir, req.RemoteAddr, data[:n])
	}
}
]]
    [fuel] bounds the number of turns of the loop; the result is [true] when
    the function has returned and [false] when it is still looping after
    [fuel] turns. *)
Fixpoint readLoop (fuel : nat) (req : Request) (r : source) (dir : bytes)
  : Prog ocall bool :=
  match fuel with
  | 0 => Ret false
  | S fuel' =>
      let* '(data, err) := trigger (World_call (source_Read r 1024)) in
      match err with
      | Some e => let* _ := trigger (log_Println e) in Ret true
      | None =>
          let* _ := trigger (log_Printf dir req data) in
          readLoop fuel' req r dir
      end
  end.

(** [[
func(r *http.Request, in, out io.Reader) {
	go readLoop(r, in, "<")
	go readLoop(r, out, ">")
}
]] *)
Definition main_callback (r : Request) (in_ out : io.Reader) : Prog ocall unit :=
  let* _ := trigger (go_readLoop r in_ ["<"]%byte) in
  trigger (go_readLoop r out [">"]%byte).

(** The verb [%x] on a byte slice: two lower-case hexadecimal digits per
    byte, nothing between them. *)
Definition hex_digit (n : N) : byte :=
  nth (N.to_nat n)
    ["0"; "1"; "2"; "3"; "4"; "5"; "6"; "7";
     "8"; "9"; "a"; "b"; "c"; "d"; "e"; "f"]%byte "0"%byte.

Definition hex_byte (b : byte) : bytes :=
  [hex_digit (Byte.to_N b / 16); hex_digit (Byte.to_N b mod 16)].

Definition hex (data : bytes) : bytes := flat_map hex_byte data.

(** The text of ["%s %s: %x\n"] for a direction, a remote address and the
    bytes read. *)
Definition message (dir addr data : bytes) : bytes :=
  dir ++ [" "%byte] ++ addr ++ [":"; " "]%byte ++ hex data ++ [x0a].

(** The value of a hexadecimal digit (0 for any other character), and the
    byte two digits spell. *)
Definition unhex_digit (c : byte) : N :=
  let n := Byte.to_N c in
  if ((48 <=? n) && (n <=? 57))%N then (n - 48)%N
  else if ((97 <=? n) && (n <=? 102))%N then (n - 87)%N
  else 0%N.

Fixpoint unhex (text : bytes) : bytes :=
  match text with
  | hi :: lo :: rest =>
      match Byte.of_N (unhex_digit hi * 16 + unhex_digit lo) with
      | Some b => b :: unhex rest
      | None => []
      end
  | _ => []
  end.

Section Observer.

Context {E : Type}.
Variable respond : forall X : Type, event X -> E -> option X * E.

(** The world, the lines logged so far and the goroutines started so far. *)
Record Desk := {
  world : World E;
  printed : list line;
  started : list (Request * io.Reader * bytes)
}.

Definition ostep {X : Type} (c : ocall X) (d : Desk) : option X * Desk :=
  match c in ocall X return option X * Desk with
  | World_call e =>
      let '(x, w) := step respond e (world d) in
      (x, {| world := w; printed := printed d; started := started d |})
  | log_Println e =>
      (Some tt,
       {| world := world d; printed := printed d ++ [Println e];
          started := started d |})
  | log_Printf dir req data =>
      (Some tt,
       {| world := world d; printed := printed d ++ [Printf dir req data];
          started := started d |})
  | go_readLoop req r dir =>
      (Some tt,
       {| world := world d; printed := printed d;
          started := started d ++ [(req, r, dir)] |})
  end.

(** Running observer code: the result, if it returned, and the desk left. *)
Fixpoint observe {A : Type} (m : Prog ocall A) (d : Desk) : option A * Desk :=
  match m with
  | Ret a => (Some a, d)
  | Vis c k =>
      let '(x, d') := ostep c d in
      match x with
      | None => (None, d')
      | Some v => observe (k v) d'
      end
  end.

(** From the world [s] the successive Reads of [r] return the chunks [ds],
    each without error, and leave the world [s']. *)
Inductive yields (r : source) : World E -> list bytes -> World E -> Prop :=
| yields_nil (s : World E) : yields r s [] s
| yields_cons (s s1 s' : World E) (d : bytes) (ds : list bytes) :
    step respond (source_Read r 1024) s = (Some (d, None), s1) ->
    yields r s1 ds s' ->
    yields r s (d :: ds) s'.

End Observer.

Arguments Desk E : clear implicits.

(** ** More handlers and scenarios *)

(** Two requests served one after the other, each hijacked through its own
    adapter; the first one's connection is worked on before the second
    hijack. *)
Definition two_hijacks (h1 h2 : callbackHijacker) (ops : list connop)
  : Prog event ((Conn_value * ReadWriter * error) * (Conn_value * ReadWriter * error)) :=
  let* a := callbackHijacker_Hijack h1 in
  let* _ := match a with
            | (Tee t, _, None) => session t ops
            | _ => Ret tt
            end in
  let* b := callbackHijacker_Hijack h2 in
  Ret (a, b).

(** A callback entry is one of the callback [cb] for the request [r]. *)
Definition for_request (cb : OnHijacked) (r : Request) (t : entry) : bool :=
  match t with
  | Entry e _ =>
      match e with
      | Call_OnHijacked cb' r' _ _ => (cb' =? cb)%nat && (r' =? r)%nat
      | _ => true
      end
  end.

Definition hijacks_server {X : Type} (e : event X) : bool :=
  match e with
  | RW_Hijack _ => true
  | _ => false
  end.

(** In a trace every callback is the callback [cb] for the request [r],
    there are two new pipes per callback, and no more callbacks than
    hijacks of the server's writer. *)
Definition taps_well (cb : OnHijacked) (r : Request) (tr : list entry) : Prop :=
  forallb (for_request cb r) tr = true /\
  count_calls (@makes_pipe) tr = 2 * count_calls (@calls_back) tr /\
  count_calls (@calls_back) tr <= count_calls (@hijacks_server) tr.



(** [scripted], with a callback that never returns. *)
Definition scripted_stuck_callback (X : Type) (e : event X) (s : script)
  : option X * script :=
  match e in event X return option X * script with
  | Call_OnHijacked _ _ _ _ => (None, s)
  | e' => scripted e' s
  end.

(** A socket that delivers "H", then "I", then "!" together with EOF. *)
Definition last_gasp : script :=
  {| incoming := [(["H"]%byte, None); (["I"]%byte, None); (["!"]%byte, Some EOF)];
     socket_write := Whole; ext_write := Whole;
     consumer := Some io.Drained; hijack := (7, 0, None) |}.

(** An outside writer that takes one byte of each Write and says so. *)
Definition short_sink : script :=
  {| incoming := [(["H"; "I"]%byte, None)];
     socket_write := Whole; ext_write := Short 1;
     consumer := Some io.Drained; hijack := (7, 0, None) |}.

(** An observer that has stopped reading. *)
Definition stalled_observer : script :=
  {| incoming := [(["H"; "I"]%byte, None)];
     socket_write := Whole; ext_write := Whole;
     consumer := None; hijack := (7, 0, None) |}.

(** The world after a hijack whose observer has since closed both read
    ends. *)
Definition abandoned (s : script) : World script :=
  {| pipes := [io.closeRead io.new_pipe None; io.closeRead io.new_pipe None];
     outside := s |}.

(** The wrapper of connection 7 with two outside writers as sinks. *)
Definition tee_ext : teeConn := TeeConn 7 (io.ExtWriter 0) (io.ExtWriter 1).

(** A second adapter, for request 12 on writer 4. *)
Definition adapter1 : callbackHijacker :=
  {| ResponseWriter := {| handle := 4; hijackable := true |};
     hijacker := 4; request := 12; callback := 5 |}.

(** A handler that hijacks, reads once and writes "OK". *)
Definition upgrading_handler : Handler := fun _ =>
  let* res := trigger W_Hijack in
  match res with
  | Some (c, _, None) =>
      let* _ := trigger (C_Read c 1024) in
      let* _ := trigger (C_Write c ["O"; "K"]%byte) in
      Ret tt
  | _ => Ret tt
  end.

Arguments step : simpl never.

(** * Properties *)

Section Facts.

Context {E : Type}.
Variable respond : forall X : Type, event X -> E -> option X * E.

(** ** Running composed programs *)

Lemma run_bind (A B : Type) (m : Prog event A) (f : A -> Prog event B) (s : World E) :
  run respond (bind m f) s =
  match outcome (run respond m s) with
  | Some a =>
      let r2 := run respond (f a) (final (run respond m s)) in
      {| outcome := outcome r2; final := final r2;
         trace := trace (run respond m s) ++ trace r2 |}
  | None =>
      {| outcome := None; final := final (run respond m s);
         trace := trace (run respond m s) |}
  end.
Proof.
  revert s. induction m as [a | X e k IH]; intros s; simpl.
  - destruct (run respond (f a) s); reflexivity.
  - destruct (step respond e s) as [[v|] s']; simpl; [|reflexivity].
    rewrite IH. destruct (outcome (run respond (k v) s')); reflexivity.
Qed.

Lemma run_trigger (X : Type) (e : event X) (s : World E) :
  run respond (trigger e) s =
  {| outcome := fst (step respond e s); final := snd (step respond e s);
     trace := [Entry e (fst (step respond e s))] |}.
Proof.
  unfold trigger. simpl. destruct (step respond e s) as [[v|] s']; reflexivity.
Qed.

Lemma upto_whole (n : Z) (p : bytes) : (len p <= n)%Z -> upto n p = p.
Proof.
  unfold upto, len. intros H. apply firstn_all2. lia.
Qed.

Lemma upto_nothing (n : Z) (p : bytes) : (n <= 0)%Z -> upto n p = [].
Proof.
  unfold upto. intros H. replace (Z.to_nat n) with 0%nat by lia. reflexivity.
Qed.

Lemma upto_nonempty (n : Z) (p : bytes) : (0 < n)%Z -> p <> [] -> upto n p <> [].
Proof.
  unfold upto. intros Hn Hp. destruct p as [|b p]; [congruence|].
  destruct (Z.to_nat n) eqn:Hz; [lia|]. simpl. discriminate.
Qed.

Lemma sunk_Sink_Write (s : io.Sink) (p : bytes) (n : Z) (err : error) :
  delivered s (Entry (Sink_Write s p) (Some (n, err))) = upto n p.
Proof.
  destruct s; simpl; rewrite decide_True by reflexivity; reflexivity.
Qed.

Lemma handed_Sink_Write (s : io.Sink) (p : bytes) (x : option (Z * error)) :
  offered s (Entry (Sink_Write s p) x) = p.
Proof.
  destruct s; simpl; rewrite decide_True by reflexivity; reflexivity.
Qed.

Lemma sunk_other_Sink_Write (s s' : io.Sink) (p : bytes) (x : option (Z * error)) :
  s <> s' -> delivered s (Entry (Sink_Write s' p) x) = [].
Proof.
  intros Hne. destruct s'; simpl; destruct x as [[n err]|]; try reflexivity;
    rewrite decide_False by assumption; reflexivity.
Qed.


(** ** The wrapper's Write *)

Lemma teeConn_Write_run (conn : net.Conn) (in_ out : io.Sink) (p : bytes) (s : World E) :
  run respond (teeConn_Write (TeeConn conn in_ out) p) s =
  match step respond (Conn_Write conn p) s with
  | (None, s1) =>
      {| outcome := None; final := s1; trace := [Entry (Conn_Write conn p) None] |}
  | (Some (n, Some e), s1) =>
      {| outcome := Some (n, Some e); final := s1;
         trace := [Entry (Conn_Write conn p) (Some (n, Some e))] |}
  | (Some (n, None), s1) =>
      if (n =? len p)%Z then
        match step respond (Sink_Write out p) s1 with
        | (None, s2) =>
            {| outcome := None; final := s2;
               trace := [Entry (Conn_Write conn p) (Some (n, None));
                         Entry (Sink_Write out p) None] |}
        | (Some (n', err'), s2) =>
            {| outcome :=
                 Some match err' with
                      | Some _ => (n', err')
                      | None => if (n' =? len p)%Z then (len p, None)
                                else (n', Some ErrShortWrite)
                      end;
               final := s2;
               trace := [Entry (Conn_Write conn p) (Some (n, None));
                         Entry (Sink_Write out p) (Some (n', err'))] |}
        end
      else
        {| outcome := Some (n, Some ErrShortWrite); final := s1;
           trace := [Entry (Conn_Write conn p) (Some (n, None))] |}
  end.
Proof.
  unfold teeConn_Write, multiWriter_Write. simpl.
  destruct (step respond (Conn_Write conn p) s) as [[[n [e|]]|] s1]; simpl;
    try reflexivity.
  destruct (n =? len p)%Z; simpl; [|reflexivity].
  destruct (step respond (Sink_Write out p) s1) as [[[n' [e'|]]|] s2]; simpl;
    try reflexivity.
  destruct (n' =? len p)%Z; reflexivity.
Qed.

(** ** The wrapper's Read *)

Lemma teeConn_Read_run (conn : net.Conn) (in_ out : io.Sink) (size : nat) (s : World E) :
  run respond (teeConn_Read (TeeConn conn in_ out) size) s =
  match step respond (Conn_Read conn size) s with
  | (None, s1) =>
      {| outcome := None; final := s1; trace := [Entry (Conn_Read conn size) None] |}
  | (Some (data, err), s1) =>
      if (0 <? len data)%Z then
        match step respond (Sink_Write in_ data) s1 with
        | (None, s2) =>
            {| outcome := None; final := s2;
               trace := [Entry (Conn_Read conn size) (Some (data, err));
                         Entry (Sink_Write in_ data) None] |}
        | (Some (n', err'), s2) =>
            {| outcome :=
                 Some match err' with
                      | Some _ => {| filled := data; n_read := n'; err_read := err' |}
                      | None => {| filled := data; n_read := len data; err_read := err |}
                      end;
               final := s2;
               trace := [Entry (Conn_Read conn size) (Some (data, err));
                         Entry (Sink_Write in_ data) (Some (n', err'))] |}
        end
      else
        {| outcome := Some {| filled := data; n_read := len data; err_read := err |};
           final := s1;
           trace := [Entry (Conn_Read conn size) (Some (data, err))] |}
  end.
Proof.
  unfold teeConn_Read, teeReader_Read. simpl.
  destruct (step respond (Conn_Read conn size) s) as [[[data err]|] s1]; simpl;
    try reflexivity.
  destruct (0 <? len data)%Z; simpl; [|reflexivity].
  destruct (step respond (Sink_Write in_ data) s1) as [[[n' [e'|]]|] s2]; simpl;
    reflexivity.
Qed.

(** ** Claims about one Read or one Write *)

(** C10.  Short write: when the socket takes only [n < len(p)] bytes of a
    non-empty [p] and reports no error, the wrapper's Write returns [n] with
    [ErrShortWrite]; the outbound sink is not written to at all, although
    the first [n] bytes of [p] did cross the socket; for [n > 0] what the
    sink has seen differs from what was transmitted. *)
Theorem short_write_starves_sink
  (conn : net.Conn) (in_ out : io.Sink) (p : bytes) (n : Z) (s s1 : World E) :
  p <> [] ->
  step respond (Conn_Write conn p) s = (Some (n, None), s1) ->
  (n < len p)%Z ->
  let r := run respond (teeConn_Write (TeeConn conn in_ out) p) s in
  outcome r = Some (n, Some ErrShortWrite) /\
  trace r = [Entry (Conn_Write conn p) (Some (n, None))] /\
  count_calls (@writes_sink) (trace r) = 0 /\
  handed out (trace r) = [] /\
  sunk out (trace r) = [] /\
  wire_out conn (trace r) = upto n p /\
  ((0 < n)%Z -> wire_out conn (trace r) <> sunk out (trace r)).
Proof.
  intros Hp Hstep Hn r. subst r. rewrite teeConn_Write_run, Hstep.
  assert ((n =? len p)%Z = false) as -> by (apply Z.eqb_neq; lia).
  cbn [outcome trace]. repeat split; try reflexivity.
  - unfold wire_out. cbn. rewrite decide_True by reflexivity. apply app_nil_r.
  - intros Hpos. unfold wire_out, sunk. cbn.
    rewrite decide_True by reflexivity. rewrite app_nil_r.
    apply upto_nonempty; assumption.
Qed.


(** C2, as the code has it.  A failure of the sink is not kept apart from
    the connection: when the underlying Read succeeded with data and the
    Write of that data to the inbound sink failed, the wrapper's Read returns
    the sink's count and the sink's error; when the underlying Write took
    the whole of [p] without error and the Write of [p] to the outbound sink
    failed, the wrapper's Write returns the sink's count and the sink's
    error. *)
Theorem sink_failure_is_returned
  (conn : net.Conn) (in_ out : io.Sink) (size : nat) (data p : bytes)
  (nr nw : Z) (er ew : errval) (s s1 s2 t t1 t2 : World E) :
  step respond (Conn_Read conn size) s = (Some (data, None), s1) ->
  data <> [] ->
  step respond (Sink_Write in_ data) s1 = (Some (nr, Some er), s2) ->
  step respond (Conn_Write conn p) t = (Some (len p, None), t1) ->
  step respond (Sink_Write out p) t1 = (Some (nw, Some ew), t2) ->
  outcome (run respond (teeConn_Read (TeeConn conn in_ out) size) s) =
    Some {| filled := data; n_read := nr; err_read := Some er |} /\
  outcome (run respond (teeConn_Write (TeeConn conn in_ out) p) t) =
    Some (nw, Some ew).
Proof.
  intros Hread Hdata Hin Hwrite Hout. split.
  - rewrite teeConn_Read_run, Hread.
    assert ((0 <? len data)%Z = true) as ->.
    { apply Z.ltb_lt. unfold len. destruct data; [congruence|]. simpl length. lia. }
    rewrite Hin. reflexivity.
  - rewrite teeConn_Write_run, Hwrite, Z.eqb_refl, Hout. reflexivity.
Qed.


(** ** Sessions *)

Lemma run_then_tt (A : Type) (m : Prog event A) (s : World E) :
  trace (run respond (let* _ := m in Ret tt) s) = trace (run respond m s) /\
  final (run respond (let* _ := m in Ret tt) s) = final (run respond m s) /\
  outcome (run respond (let* _ := m in Ret tt) s) =
    match outcome (run respond m s) with Some _ => Some tt | None => None end.
Proof.
  rewrite run_bind. destruct (outcome (run respond m s)); cbn.
  - rewrite app_nil_r. repeat split.
  - repeat split.
Qed.

Lemma wire_in_app (conn : net.Conn) (t1 t2 : list entry) :
  wire_in conn (t1 ++ t2) = wire_in conn t1 ++ wire_in conn t2.
Proof. apply flat_map_app. Qed.

Lemma wire_out_app (conn : net.Conn) (t1 t2 : list entry) :
  wire_out conn (t1 ++ t2) = wire_out conn t1 ++ wire_out conn t2.
Proof. apply flat_map_app. Qed.

Lemma sunk_app (k : io.Sink) (t1 t2 : list entry) :
  sunk k (t1 ++ t2) = sunk k t1 ++ sunk k t2.
Proof. apply flat_map_app. Qed.

Lemma transmitted_Conn_Write (conn : net.Conn) (p : bytes) (n : Z) (err : error) :
  transmitted conn (Entry (Conn_Write conn p) (Some (n, err))) = upto n p.
Proof. simpl. rewrite decide_True by reflexivity. reflexivity. Qed.

Lemma received_Conn_Read (conn : net.Conn) (size : nat) (data : bytes) (err : error) :
  received conn (Entry (Conn_Read conn size) (Some (data, err))) = data.
Proof. simpl. rewrite decide_True by reflexivity. reflexivity. Qed.

Lemma received_Sink_Write (conn : net.Conn) (k : io.Sink) (p : bytes) (x : option (Z * error)) :
  received conn (Entry (Sink_Write k p) x) = [] /\
  transmitted conn (Entry (Sink_Write k p) x) = [].
Proof. destruct k; split; reflexivity. Qed.

Lemma clean_Sink_Write (k : io.Sink) (p : bytes) (x : option (Z * error)) :
  clean (Entry (Sink_Write k p) x) = true ->
  exists (n : Z) (err : error), x = Some (n, err) /\ (len p <= n)%Z.
Proof.
  destruct k; simpl; destruct x as [[n err]|]; try discriminate;
    intros H; exists n, err; split; try reflexivity; lia.
Qed.

Ltac trace_bytes :=
  unfold wire_in, wire_out, sunk, handed; cbn [flat_map forallb];
  rewrite ?received_Conn_Read, ?transmitted_Conn_Write, ?sunk_Sink_Write,
    ?(fun c k p x => proj1 (received_Sink_Write c k p x)),
    ?(fun c k p x => proj2 (received_Sink_Write c k p x)),
    ?app_nil_r.

Lemma Read_fidelity
  (conn : net.Conn) (in_ out : io.Sink) (size : nat) (s : World E) :
  in_ <> out ->
  let tr := trace (run respond (teeConn_Read (TeeConn conn in_ out) size) s) in
  forallb clean tr = true ->
  wire_in conn tr = sunk in_ tr /\ wire_out conn tr = sunk out tr.
Proof.
  intros Hne tr. subst tr. rewrite teeConn_Read_run.
  destruct (step respond (Conn_Read conn size) s) as [[[data err]|] s1];
    [|intros _; split; reflexivity].
  destruct (0 <? len data)%Z eqn:Hlen.
  - destruct (step respond (Sink_Write in_ data) s1) as [[[n' err']|] s2];
      cbn [trace]; intros Hclean.
    + cbn [forallb] in Hclean.
      apply andb_prop in Hclean as [_ Hclean].
      apply andb_prop in Hclean as [Hclean _].
      apply clean_Sink_Write in Hclean as (n & e & Heq & Hn).
      inversion Heq; subst n e.
      trace_bytes. rewrite (sunk_other_Sink_Write _ _ (not_eq_sym Hne)).
      cbn. rewrite upto_whole by assumption. split; reflexivity.
    + cbn [forallb] in Hclean.
      apply andb_prop in Hclean as [_ Hclean].
      apply andb_prop in Hclean as [Hclean _].
      apply clean_Sink_Write in Hclean as (n & e & Heq & _). discriminate.
  - cbn [trace]. intros _. trace_bytes. cbn.
    apply Z.ltb_ge in Hlen. unfold len in Hlen.
    destruct data; [split; reflexivity|]. simpl length in Hlen. lia.
Qed.

Lemma Write_fidelity
  (conn : net.Conn) (in_ out : io.Sink) (p : bytes) (s : World E) :
  in_ <> out ->
  let tr := trace (run respond (teeConn_Write (TeeConn conn in_ out) p) s) in
  forallb clean tr = true ->
  wire_in conn tr = sunk in_ tr /\ wire_out conn tr = sunk out tr.
Proof.
  intros Hne tr. subst tr. rewrite teeConn_Write_run.
  destruct (step respond (Conn_Write conn p) s) as [[[n [e|]]|] s1];
    [| |intros _; split; reflexivity].
  - cbn [trace forallb clean]. intros Hclean.
    rewrite bool_decide_eq_false_2, andb_false_r, orb_false_r, andb_true_r in Hclean
      by discriminate.
    trace_bytes. cbn. rewrite upto_nothing by lia. split; reflexivity.
  - destruct (n =? len p)%Z eqn:Hn.
    + apply Z.eqb_eq in Hn. subst n.
      destruct (step respond (Sink_Write out p) s1) as [[[n' err']|] s2];
        cbn [trace]; intros Hclean; cbn [forallb] in Hclean;
        apply andb_prop in Hclean as [_ Hclean];
        apply andb_prop in Hclean as [Hclean _];
        apply clean_Sink_Write in Hclean as (n & e & Heq & Hcount);
        [|discriminate].
      inversion Heq; subst n e.
      trace_bytes. rewrite (sunk_other_Sink_Write _ _ Hne).
      cbn. rewrite !upto_whole by lia. split; reflexivity.
    + cbn [trace forallb clean]. intros Hclean.
      rewrite Hn in Hclean. cbn in Hclean.
      rewrite orb_false_r, andb_true_r in Hclean.
      trace_bytes. cbn. rewrite upto_nothing by lia. split; reflexivity.
Qed.

Lemma call_fidelity
  (conn : net.Conn) (in_ out : io.Sink) (op : connop) (s : World E) :
  in_ <> out ->
  let tr := trace (run respond (teeConn_call (TeeConn conn in_ out) op) s) in
  forallb clean tr = true ->
  wire_in conn tr = sunk in_ tr /\ wire_out conn tr = sunk out tr.
Proof.
  intros Hne tr. subst tr.
  destruct op; unfold teeConn_call; rewrite (proj1 (run_then_tt _ _)).
  - apply Read_fidelity. assumption.
  - apply Write_fidelity. assumption.
  - unfold teeConn_Close. rewrite run_trigger. intros _. split; reflexivity.
  - unfold teeConn_LocalAddr. rewrite run_trigger. intros _. split; reflexivity.
  - unfold teeConn_RemoteAddr. rewrite run_trigger. intros _. split; reflexivity.
  - unfold teeConn_SetDeadline. rewrite run_trigger. intros _. split; reflexivity.
  - unfold teeConn_SetReadDeadline. rewrite run_trigger. intros _. split; reflexivity.
  - unfold teeConn_SetWriteDeadline. rewrite run_trigger. intros _. split; reflexivity.
Qed.

(** C1, as the code has it.  Over any session of calls on the wrapper in
    which every Write of the socket either took nothing or took the whole
    slice without error, and every Write of a sink returned having taken
    the whole slice it was handed, the bytes delivered to the inbound sink
    are the bytes the socket's Reads returned, in order, and the bytes
    delivered to the outbound sink are the bytes the socket's Writes took,
    in order; Reads of no byte and of one byte included. *)
Theorem tee_fidelity
  (conn : net.Conn) (in_ out : io.Sink) (ops : list connop) (s : World E) :
  in_ <> out ->
  let tr := trace (run respond (session (TeeConn conn in_ out) ops) s) in
  forallb clean tr = true ->
  sunk in_ tr = wire_in conn tr /\ sunk out tr = wire_out conn tr.
Proof.
  intros Hne. revert s. induction ops as [|op rest IH]; intros s tr; subst tr.
  - intros _. split; reflexivity.
  - cbn [session]. rewrite run_bind.
    pose proof (call_fidelity conn op s Hne) as Hcall. cbv zeta in Hcall.
    destruct (outcome (run respond (teeConn_call (TeeConn conn in_ out) op) s)).
    + cbn [trace]. rewrite forallb_app. intros Hclean.
      apply andb_prop in Hclean as [H1 H2].
      destruct (Hcall H1) as [Hin Hout].
      destruct (IH _ H2) as [Hin' Hout'].
      rewrite !sunk_app, wire_in_app, wire_out_app, Hin, Hout, Hin', Hout'.
      split; reflexivity.
    + cbn [trace]. intros Hclean. destruct (Hcall Hclean) as [Hin Hout].
      split; congruence.
Qed.

(** ** Steps and pipes *)

Lemma step_pipes_length (X : Type) (e : event X) (s : World E) :
  makes_pipe e = false ->
  length (pipes (snd (step respond e s))) = length (pipes s).
Proof.
  destruct e; intros Hnew; try discriminate; unfold step;
    try (destruct (respond _ (outside s)) as [x o]; reflexivity).
  - destruct (pipes s !! id) as [ps|]; [|reflexivity].
    destruct (if io.done ps then _ else _) as [d o].
    destruct (io.write ps p d) as [x ps']. cbn. apply length_insert.
  - destruct (pipes s !! id); reflexivity.
  - destruct (pipes s !! id); [|reflexivity]. cbn. apply length_insert.
  - destruct (pipes s !! id); [|reflexivity]. cbn. apply length_insert.
Qed.





(** ** Programs that only make calls of one kind *)

Lemma only_bind (P : forall X : Type, event X -> bool) (A B : Type)
  (m : Prog event A) (f : A -> Prog event B) :
  only P m -> (forall a : A, only P (f a)) -> only P (bind m f).
Proof.
  intros Hm Hf. induction Hm as [a | X e k He Hk IH]; cbn.
  - apply Hf.
  - apply only_Vis; assumption.
Qed.

Lemma only_trigger (P : forall X : Type, event X -> bool) (X : Type) (e : event X) :
  P X e = true -> only P (trigger e).
Proof. intros He. apply only_Vis; [assumption|]. intros x. apply only_Ret. Qed.

Lemma run_only (P : forall X : Type, event X -> bool) (A : Type)
  (m : Prog event A) (s : World E) :
  only P m -> forallb (on_call P) (trace (run respond m s)) = true.
Proof.
  intros Hm. revert s. induction Hm as [a | X e k He Hk IH]; intros s; cbn.
  - reflexivity.
  - destruct (step respond e s) as [[v|] s1]; cbn; rewrite He; [|reflexivity].
    apply IH.
Qed.

Lemma run_untapped_length (A : Type) (m : Prog event A) (s : World E) :
  only (@untapped) m ->
  length (pipes (final (run respond m s))) = length (pipes s).
Proof.
  intros Hm. revert s. induction Hm as [a | X e k He Hk IH]; intros s; cbn.
  - reflexivity.
  - assert (makes_pipe e = false) as Hnew.
    { unfold untapped in He. destruct (makes_pipe e); [|reflexivity].
      rewrite andb_false_r in He. discriminate. }
    pose proof (step_pipes_length e s Hnew) as Hlen.
    destruct (step respond e s) as [[v|] s1]; cbn in *; [|assumption].
    rewrite IH. assumption.
Qed.


Lemma Sink_Write_untapped (k : io.Sink) (p : bytes) :
  untapped (Sink_Write k p) = true.
Proof. destruct k; reflexivity. Qed.

Lemma Writer_Write_untapped (w : io.Writer) (p : bytes) :
  untapped (Writer_Write w p) = true.
Proof. destruct w as [c|k]; [reflexivity|apply Sink_Write_untapped]. Qed.

Lemma teeConn_Read_untapped (c : teeConn) (size : nat) :
  only (@untapped) (teeConn_Read c size).
Proof.
  unfold teeConn_Read, teeReader_Read. cbn [bind trigger].
  apply only_Vis; [reflexivity|]. intros [data err]. cbn [bind].
  destruct (0 <? len data)%Z; [|apply only_Ret]. cbn [bind].
  apply only_Vis; [apply Sink_Write_untapped|].
  intros [n' [e'|]]; apply only_Ret.
Qed.

Lemma multiWriter_range_untapped (ws : list io.Writer) (p : bytes) :
  only (@untapped) (multiWriter_range ws p).
Proof.
  induction ws as [|w rest IH]; cbn [multiWriter_range bind trigger].
  - apply only_Ret.
  - apply only_Vis; [apply Writer_Write_untapped|].
    intros [n [e|]]; cbn [bind]; [apply only_Ret|].
    destruct (n =? len p)%Z; [assumption|apply only_Ret].
Qed.

Lemma teeConn_call_untapped (c : teeConn) (op : connop) :
  only (@untapped) (teeConn_call c op).
Proof.
  destruct op; unfold teeConn_call; apply only_bind;
    try (intros; apply only_Ret);
    try (apply only_trigger; reflexivity).
  - apply teeConn_Read_untapped.
  - apply multiWriter_range_untapped.
Qed.

Lemma session_untapped (c : teeConn) (ops : list connop) :
  only (@untapped) (session c ops).
Proof.
  induction ops as [|op rest IH]; cbn [session].
  - apply only_Ret.
  - apply only_bind; [apply teeConn_call_untapped|]. intros _. assumption.
Qed.

Lemma dispatch_untapped (w : Writer_value) (X : Type) (c : hcall X) :
  is_hijack_call c = false -> only (@untapped) (dispatch w c).
Proof.
  destruct c; cbn [is_hijack_call dispatch]; intros Hc; try discriminate.
  - destruct w; apply only_trigger; reflexivity.
  - destruct w; apply only_trigger; reflexivity.
  - destruct w; apply only_trigger; reflexivity.
  - destruct c as [c0|t]; cbn [Conn_value_Read].
    + apply only_bind; [apply only_trigger; reflexivity|].
      intros [data err]. apply only_Ret.
    + apply teeConn_Read_untapped.
  - destruct c as [c0|t]; cbn [Conn_value_Write].
    + apply only_trigger. reflexivity.
    + apply multiWriter_range_untapped.
  - destruct c as [c0|t]; apply only_trigger; reflexivity.
Qed.


Lemma untapped_quiet (tr : list entry) :
  forallb (on_call (@untapped)) tr = true ->
  count_calls (@calls_back) tr = 0 /\ count_calls (@makes_pipe) tr = 0 /\
  count_calls (@closes_pipe) tr = 0.
Proof.
  unfold count_calls. induction tr as [|[X e x] tr IH]; cbn [forallb on_call].
  - intros _. repeat split.
  - intros H. apply andb_prop in H as [He Htr]. destruct (IH Htr) as (H1 & H2 & H3).
    unfold untapped in He.
    destruct (calls_back e) eqn:Hcb; [discriminate|].
    destruct (makes_pipe e) eqn:Hmp; [discriminate|].
    destruct (closes_pipe e) eqn:Hcp; [discriminate|].
    rewrite !filter_cons. cbn [on_call]. rewrite Hcb, Hmp, Hcp.
    rewrite !decide_False by discriminate. repeat split; assumption.
Qed.


(** ** Claims about the adapter and the middleware *)

Lemma step_RW_Hijack_pipes (w : nat) (s : World E) :
  pipes (snd (step respond (RW_Hijack w) s)) = pipes s.
Proof. unfold step. destruct (respond _ (outside s)). reflexivity. Qed.

Lemma step_Call_OnHijacked_pipes
  (cb : OnHijacked) (r : Request) (rin rout : io.Reader) (s : World E) :
  pipes (snd (step respond (Call_OnHijacked cb r rin rout) s)) = pipes s.
Proof. unfold step. destruct (respond _ (outside s)). reflexivity. Qed.

Lemma step_Pipe_New (s : World E) :
  step respond Pipe_New s =
  (Some (length (pipes s)),
   {| pipes := pipes s ++ [io.new_pipe]; outside := outside s |}).
Proof. reflexivity. Qed.

Lemma callbackHijacker_Hijack_run (h : callbackHijacker) (s : World E) :
  run respond (callbackHijacker_Hijack h) s =
  match step respond (RW_Hijack (hijacker h)) s with
  | (None, s1) =>
      {| outcome := None; final := s1;
         trace := [Entry (RW_Hijack (hijacker h)) None] |}
  | (Some (conn, buf, Some e), s1) =>
      {| outcome := Some (Raw conn, buf, Some e); final := s1;
         trace := [Entry (RW_Hijack (hijacker h)) (Some (conn, buf, Some e))] |}
  | (Some (conn, buf, None), s1) =>
      let pIn := length (pipes s1) in
      let pOut := S (length (pipes s1)) in
      let call := Call_OnHijacked (callback h) (request h)
                    (io.PipeReader pIn) (io.PipeReader pOut) in
      let s3 := {| pipes := pipes s1 ++ [io.new_pipe; io.new_pipe];
                   outside := outside s1 |} in
      let before := [Entry (RW_Hijack (hijacker h)) (Some (conn, buf, None));
                     Entry Pipe_New (Some pIn); Entry Pipe_New (Some pOut)] in
      match step respond call s3 with
      | (None, s4) =>
          {| outcome := None; final := s4; trace := before ++ [Entry call None] |}
      | (Some u, s4) =>
          {| outcome :=
               Some (Tee (TeeConn conn (io.PipeWriter pIn) (io.PipeWriter pOut)),
                     buf, None);
             final := s4; trace := before ++ [Entry call (Some u)] |}
      end
  end.
Proof.
  unfold callbackHijacker_Hijack. cbn [bind trigger run].
  destruct (step respond (RW_Hijack (hijacker h)) s) as [[[[conn buf] [e|]]|] s1];
    cbn [run bind]; try reflexivity.
  rewrite step_Pipe_New. cbn [run bind]. rewrite step_Pipe_New.
  cbn [pipes outside]. rewrite length_app, Nat.add_1_r, <- app_assoc.
  cbn [length app run].
  destruct (step respond _ _) as [[u|] s4]; reflexivity.
Qed.

(** C3.  Let [h] be the adapter [CallbackHijacker] made for the writer [w],
    the request [r] and the callback [cb].  When [Hijack] of [h] returns
    without error, it has made exactly these calls, in this order: the
    Hijack of [w], which succeeded; [io.Pipe] twice, giving two pipes that
    did not exist before, both open; the callback [cb], once, with the
    request [r] and the read ends of those two pipes, inbound first, and
    the callback has returned.  Only then is the result returned: the
    wrapper of the hijacked connection whose sinks are the write ends of
    the same two pipes, together with the underlying buffer.  No byte has
    been read or written meanwhile. *)
Theorem Hijack_calls_back_once
  (w : ServerWriter) (r : Request) (cb : OnHijacked) (h : callbackHijacker)
  (s : World E) (c : Conn_value) (buf : ReadWriter) :
  CallbackHijacker w r cb = Adapted h ->
  let res := run respond (callbackHijacker_Hijack h) s in
  outcome res = Some (c, buf, None) ->
  exists conn : net.Conn,
    let pIn := length (pipes s) in
    let pOut := S (length (pipes s)) in
    fst (step respond (RW_Hijack (handle w)) s) = Some (conn, buf, None) /\
    trace res =
      [Entry (RW_Hijack (handle w)) (Some (conn, buf, None));
       Entry Pipe_New (Some pIn);
       Entry Pipe_New (Some pOut);
       Entry (Call_OnHijacked cb r (io.PipeReader pIn) (io.PipeReader pOut))
         (Some tt)] /\
    c = Tee (TeeConn conn (io.PipeWriter pIn) (io.PipeWriter pOut)) /\
    count_calls (@calls_back) (trace res) = 1 /\
    count_calls (@moves_bytes) (trace res) = 0 /\
    pipes s !! pIn = None /\ pipes s !! pOut = None /\ pIn <> pOut /\
    pipes (final res) = pipes s ++ [io.new_pipe; io.new_pipe].
Proof.
  intros Hh res. subst res.
  unfold CallbackHijacker in Hh. destruct (hijackable w); [|discriminate].
  inversion Hh. subst h. clear Hh. cbn [hijacker request callback].
  rewrite callbackHijacker_Hijack_run. cbn [hijacker request callback].
  pose proof (step_RW_Hijack_pipes (handle w) s) as Hpipes.
  destruct (step respond (RW_Hijack (handle w)) s) as [[[[conn buf'] [e|]]|] s1];
    cbn [outcome]; try discriminate.
  cbn [snd] in Hpipes. cbv zeta. rewrite Hpipes.
  match goal with
  | |- context [step respond ?call ?w0] =>
      pose proof (step_Call_OnHijacked_pipes cb r
                    (io.PipeReader (length (pipes s)))
                    (io.PipeReader (S (length (pipes s)))) w0) as Hcb;
      destruct (step respond call w0) as [[[]|] s4]
  end; cbn [outcome trace final snd pipes] in *; [|discriminate].
  intros Hres. inversion Hres; subst buf' c. clear Hres.
  exists conn. repeat split.
  - apply lookup_ge_None. lia.
  - apply lookup_ge_None. lia.
  - lia.
  - assumption.
Qed.

(** C4.  When the underlying Hijack returns an error, the adapter's Hijack
    returns the same connection, buffer and error, having made that one call
    and no other: no pipe is made, no callback is called, and the pipes
    that exist are as they were. *)
Theorem Hijack_failure_unchanged
  (h : callbackHijacker) (s s1 : World E)
  (conn : net.Conn) (buf : ReadWriter) (e : errval) :
  step respond (RW_Hijack (hijacker h)) s = (Some (conn, buf, Some e), s1) ->
  let r := run respond (callbackHijacker_Hijack h) s in
  r = {| outcome := Some (Raw conn, buf, Some e); final := s1;
         trace := [Entry (RW_Hijack (hijacker h)) (Some (conn, buf, Some e))] |} /\
  count_calls (@makes_pipe) (trace r) = 0 /\
  count_calls (@calls_back) (trace r) = 0 /\
  pipes (final r) = pipes s.
Proof.
  intros Hstep r. subst r.
  pose proof (step_RW_Hijack_pipes (hijacker h) s) as Hpipes.
  unfold callbackHijacker_Hijack. cbn [bind trigger run].
  rewrite Hstep in *. cbn. repeat split. assumption.
Qed.

(** C5.  Wrapping a response writer that has no [Hijack] gives back that
    very writer: the result is not a hijacker either, a handler that asks
    it for a hijack is told there is none (nothing is called, nothing
    fails), and whatever a handler does with the result is what it does
    with the original, call for call. *)
Theorem CallbackHijacker_passthrough
  (w : ServerWriter) (r : Request) (cb : OnHijacked) (s : World E) :
  hijackable w = false ->
  CallbackHijacker w r cb = Plain w /\
  is_Hijacker (CallbackHijacker w r cb) = false /\
  dispatch (CallbackHijacker w r cb) W_Hijack = Ret None /\
  forall (A : Type) (h : Prog hcall A),
    run respond (serve (CallbackHijacker w r cb) h) s =
    run respond (serve (Plain w) h) s.
Proof.
  intros Hw. unfold CallbackHijacker. rewrite Hw. cbn. rewrite Hw.
  repeat split.
Qed.



(** * Further properties of the wrapper *)

Lemma len_nonneg (p : bytes) : (0 <= len p)%Z.
Proof. unfold len. lia. Qed.

Lemma len_positive (p : bytes) : p <> [] -> (0 <? len p)%Z = true.
Proof.
  intros Hp. apply Z.ltb_lt. unfold len. destruct p; [congruence|].
  simpl length. lia.
Qed.

Lemma handed_app (k : io.Sink) (t1 t2 : list entry) :
  handed k (t1 ++ t2) = handed k t1 ++ handed k t2.
Proof. apply flat_map_app. Qed.

Lemma handed_other_Sink_Write (k k' : io.Sink) (p : bytes) (x : option (Z * error)) :
  k <> k' -> offered k (Entry (Sink_Write k' p) x) = [].
Proof.
  intros Hne. destruct k'; simpl; rewrite decide_False by assumption; reflexivity.
Qed.

(** X1.  The wrapper's Write reports no error exactly when the socket took
    the whole of [p] without error and then the outbound sink took the
    whole of [p] without error; the count it returns is then [len(p)]. *)
Theorem Write_succeeds_iff_both_took_all
  (conn : net.Conn) (in_ out : io.Sink) (p : bytes) (s : World E) (n : Z) :
  outcome (run respond (teeConn_Write (TeeConn conn in_ out) p) s) = Some (n, None) <->
  n = len p /\
  exists s1 s2 : World E,
    step respond (Conn_Write conn p) s = (Some (len p, None), s1) /\
    step respond (Sink_Write out p) s1 = (Some (len p, None), s2).
Proof.
  rewrite teeConn_Write_run. split.
  - destruct (step respond (Conn_Write conn p) s) as [[[m [e|]]|] s1] eqn:H1;
      cbn [outcome]; try discriminate.
    destruct (m =? len p)%Z eqn:Hm; cbn [outcome]; [|discriminate].
    apply Z.eqb_eq in Hm. subst m.
    destruct (step respond (Sink_Write out p) s1) as [[[m' [e'|]]|] s2] eqn:H2;
      cbn [outcome]; try discriminate.
    destruct (m' =? len p)%Z eqn:Hm'; [|discriminate].
    apply Z.eqb_eq in Hm'. subst m'.
    intros H. inversion H. split; [reflexivity|]. exists s1, s2.
    split; [reflexivity|exact H2].
  - intros (-> & s1 & s2 & H1 & H2). rewrite H1, Z.eqb_refl, H2, Z.eqb_refl.
    reflexivity.
Qed.

(** X2.  A sink that reports a short count without an error is treated in
    two ways.  On the Read path the count is ignored: the wrapper's Read
    returns the socket's count and error although the sink holds fewer
    bytes than the socket returned.  On the Write path the same answer
    makes the wrapper's Write return the sink's count with
    [ErrShortWrite]. *)
Theorem short_count_of_sink
  (conn : net.Conn) (in_ out : io.Sink) (size : nat) (data p : bytes)
  (err : error) (nr nw : Z) (s s1 s2 t t1 t2 : World E) :
  step respond (Conn_Read conn size) s = (Some (data, err), s1) ->
  step respond (Sink_Write in_ data) s1 = (Some (nr, None), s2) ->
  (0 <= nr < len data)%Z ->
  step respond (Conn_Write conn p) t = (Some (len p, None), t1) ->
  step respond (Sink_Write out p) t1 = (Some (nw, None), t2) ->
  nw <> len p ->
  let rd := run respond (teeConn_Read (TeeConn conn in_ out) size) s in
  let wr := run respond (teeConn_Write (TeeConn conn in_ out) p) t in
  outcome rd = Some {| filled := data; n_read := len data; err_read := err |} /\
  sunk in_ (trace rd) = upto nr data /\
  length (sunk in_ (trace rd)) < length (wire_in conn (trace rd)) /\
  outcome wr = Some (nw, Some ErrShortWrite).
Proof.
  intros Hread Hin Hnr Hwrite Hout Hnw rd wr. subst rd wr.
  rewrite teeConn_Read_run, Hread, len_positive, Hin.
  2:{ intros ->. unfold len in Hnr. simpl in Hnr. lia. }
  rewrite teeConn_Write_run, Hwrite, Z.eqb_refl, Hout.
  apply Z.eqb_neq in Hnw. rewrite Hnw. cbn [outcome trace].
  split; [reflexivity|]. split; [|split; [|reflexivity]].
  - unfold sunk. cbn [flat_map]. rewrite sunk_Sink_Write, app_nil_r. reflexivity.
  - trace_bytes. cbn [delivered app].
    unfold upto. rewrite length_firstn. unfold len in Hnr. lia.
Qed.

(** X3.  An observer that has stopped reading stops the connection.  With
    the sinks being open pipes whose reader never comes: a Read of the
    wrapper for which the socket returned at least one byte does not
    return, although the bytes have left the socket; a Write of the wrapper
    that the socket took whole does not return either, and that includes a
    Write of no bytes at all. *)
Theorem stalled_observer_blocks
  (conn : net.Conn) (pIn pOut : nat) (size : nat) (data p : bytes) (err : error)
  (psIn psOut : io.pipe) (s s1 t t1 : World E) :
  step respond (Conn_Read conn size) s = (Some (data, err), s1) ->
  data <> [] ->
  pipes s1 !! pIn = Some psIn -> io.done psIn = false ->
  fst (respond (Pipe_Consume pIn data) (outside s1)) = None ->
  step respond (Conn_Write conn p) t = (Some (len p, None), t1) ->
  pipes t1 !! pOut = Some psOut -> io.done psOut = false ->
  fst (respond (Pipe_Consume pOut p) (outside t1)) = None ->
  let c := TeeConn conn (io.PipeWriter pIn) (io.PipeWriter pOut) in
  let rd := run respond (teeConn_Read c size) s in
  let wr := run respond (teeConn_Write c p) t in
  outcome rd = None /\
  trace rd = [Entry (Conn_Read conn size) (Some (data, err));
              Entry (Pipe_Write pIn data) None] /\
  outcome wr = None /\
  trace wr = [Entry (Conn_Write conn p) (Some (len p, None));
              Entry (Pipe_Write pOut p) None].
Proof.
  intros Hread Hdata HpIn HdIn HcIn Hwrite HpOut HdOut HcOut c rd wr.
  subst c rd wr.
  assert (forall (id : nat) (b : bytes) (w : World E) (ps : io.pipe),
            pipes w !! id = Some ps -> io.done ps = false ->
            fst (respond (Pipe_Consume id b) (outside w)) = None ->
            fst (step respond (Pipe_Write id b) w) = None) as Hblock.
  { intros id b w ps Hps Hd Hc. unfold step. rewrite Hps, Hd.
    destruct (respond (Pipe_Consume id b) (outside w)) as [d o].
    cbn [fst] in Hc. subst d. unfold io.write. rewrite Hd. reflexivity. }
  rewrite teeConn_Read_run, Hread, (len_positive Hdata).
  rewrite teeConn_Write_run, Hwrite, Z.eqb_refl.
  cbn [Sink_Write].
  pose proof (Hblock pIn data s1 psIn HpIn HdIn HcIn) as H1.
  pose proof (Hblock pOut p t1 psOut HpOut HdOut HcOut) as H2.
  destruct (step respond (Pipe_Write pIn data) s1) as [x1 s2].
  destruct (step respond (Pipe_Write pOut p) t1) as [x2 t2].
  cbn [fst] in H1, H2. subst x1 x2. repeat split.
Qed.

Lemma Read_offers_what_it_got
  (conn : net.Conn) (in_ out : io.Sink) (size : nat) (s : World E) :
  in_ <> out ->
  let tr := trace (run respond (teeConn_Read (TeeConn conn in_ out) size) s) in
  handed in_ tr = wire_in conn tr /\ handed out tr = [] /\ wire_out conn tr = [].
Proof.
  intros Hne tr. subst tr. rewrite teeConn_Read_run.
  destruct (step respond (Conn_Read conn size) s) as [[[data err]|] s1];
    [|repeat split].
  destruct (0 <? len data)%Z eqn:Hlen.
  - destruct (step respond (Sink_Write in_ data) s1) as [[[n' err']|] s2];
      cbn [trace]; trace_bytes;
      rewrite ?handed_Sink_Write, (handed_other_Sink_Write _ _ (not_eq_sym Hne));
      rewrite ?(proj1 (received_Sink_Write conn in_ data _));
      rewrite ?(proj2 (received_Sink_Write conn in_ data _));
      cbn [offered transmitted app]; rewrite ?app_nil_r; repeat split.
  - cbn [trace]. trace_bytes. cbn [offered transmitted app].
    apply Z.ltb_ge in Hlen. unfold len in Hlen.
    destruct data; [repeat split|]. simpl length in Hlen. lia.
Qed.

Lemma Write_offers_what_went
  (conn : net.Conn) (in_ out : io.Sink) (p : bytes) (s : World E) :
  in_ <> out ->
  let tr := trace (run respond (teeConn_Write (TeeConn conn in_ out) p) s) in
  handed in_ tr = [] /\ wire_in conn tr = [] /\
  handed out tr `sublist_of` wire_out conn tr.
Proof.
  intros Hne tr. subst tr. rewrite teeConn_Write_run.
  destruct (step respond (Conn_Write conn p) s) as [[[n [e|]]|] s1];
    cbn [trace]; try (repeat split; apply sublist_nil_l).
  destruct (n =? len p)%Z eqn:Hn; [|cbn [trace]; repeat split; apply sublist_nil_l].
  apply Z.eqb_eq in Hn. subst n.
  destruct (step respond (Sink_Write out p) s1) as [[[n' err']|] s2];
    cbn [trace]; trace_bytes;
    rewrite ?handed_Sink_Write, (handed_other_Sink_Write _ _ Hne);
    rewrite ?(proj1 (received_Sink_Write conn out p _));
    rewrite ?(proj2 (received_Sink_Write conn out p _));
    cbn [offered received app]; rewrite ?app_nil_r;
    rewrite upto_whole by lia; repeat split; reflexivity.
Qed.

(** X4.  Whatever the socket and the sinks answer, over any session on the
    wrapper the slices handed to the inbound sink are, in order, exactly the
    bytes the socket's Reads returned, and the slices handed to the
    outbound sink are, in order, a part of the bytes the socket's Writes
    took: a sink is never handed a byte that did not cross the socket. *)
Theorem sinks_are_offered_socket_bytes
  (conn : net.Conn) (in_ out : io.Sink) (ops : list connop) (s : World E) :
  in_ <> out ->
  let tr := trace (run respond (session (TeeConn conn in_ out) ops) s) in
  handed in_ tr = wire_in conn tr /\
  handed out tr `sublist_of` wire_out conn tr.
Proof.
  intros Hne. revert s. induction ops as [|op rest IH]; intros s tr; subst tr.
  - split; [reflexivity|apply sublist_nil_l].
  - cbn [session]. rewrite run_bind.
    assert (handed in_ (trace (run respond (teeConn_call (TeeConn conn in_ out) op) s)) =
            wire_in conn (trace (run respond (teeConn_call (TeeConn conn in_ out) op) s)) /\
            handed out (trace (run respond (teeConn_call (TeeConn conn in_ out) op) s))
              `sublist_of`
            wire_out conn (trace (run respond (teeConn_call (TeeConn conn in_ out) op) s)))
      as [Hin Hout].
    { destruct op; unfold teeConn_call; rewrite (proj1 (run_then_tt _ _)).
      - destruct (Read_offers_what_it_got conn size s Hne) as (H1 & H2 & H3).
        rewrite H1, H2, H3. split; [reflexivity|apply sublist_nil_l].
      - destruct (Write_offers_what_went conn p s Hne) as (H1 & H2 & H3).
        rewrite H1, H2. split; [reflexivity|assumption].
      - unfold teeConn_Close. rewrite run_trigger.
        split; [reflexivity|apply sublist_nil_l].
      - unfold teeConn_LocalAddr. rewrite run_trigger.
        split; [reflexivity|apply sublist_nil_l].
      - unfold teeConn_RemoteAddr. rewrite run_trigger.
        split; [reflexivity|apply sublist_nil_l].
      - unfold teeConn_SetDeadline. rewrite run_trigger.
        split; [reflexivity|apply sublist_nil_l].
      - unfold teeConn_SetReadDeadline. rewrite run_trigger.
        split; [reflexivity|apply sublist_nil_l].
      - unfold teeConn_SetWriteDeadline. rewrite run_trigger.
        split; [reflexivity|apply sublist_nil_l]. }
    destruct (outcome (run respond (teeConn_call (TeeConn conn in_ out) op) s));
      cbn [trace]; [|split; assumption].
    destruct (IH (final (run respond (teeConn_call (TeeConn conn in_ out) op) s)))
      as [Hin' Hout'].
    rewrite !handed_app, wire_in_app, wire_out_app, Hin, Hin'.
    split; [reflexivity|]. apply sublist_app; assumption.
Qed.

(** ** Closed pipes *)

Lemma step_keeps_done (X : Type) (e : event X) (s : World E)
  (id : nat) (ps : io.pipe) :
  pipes s !! id = Some ps -> io.done ps = true ->
  exists ps' : io.pipe,
    pipes (snd (step respond e s)) !! id = Some ps' /\ io.done ps' = true.
Proof.
  intros Hps Hdone.
  destruct e; unfold step;
    try (destruct (respond _ (outside s)) as [x o]; cbn;
         exists ps; split; assumption).
  - cbn. exists ps. split; [|assumption].
    rewrite lookup_app_l; [assumption|]. eapply lookup_lt_Some; eassumption.
  - destruct (pipes s !! id0) as [ps0|] eqn:Hid0; [|exists ps; split; assumption].
    destruct (if io.done ps0 then _ else _) as [d o] eqn:Hd.
    destruct (decide (id0 = id)) as [->|Hne].
    + rewrite Hps in Hid0. inversion Hid0. subst ps0.
      unfold io.write. rewrite Hdone. cbn. exists ps. split; [|assumption].
      apply list_lookup_insert_eq. eapply lookup_lt_Some; eassumption.
    + destruct (io.write ps0 p d) as [x ps']. cbn. exists ps.
      split; [|assumption]. rewrite list_lookup_insert_ne; assumption.
  - destruct (pipes s !! id0); exists ps; split; assumption.
  - destruct (pipes s !! id0) as [ps0|] eqn:Hid0; [|exists ps; split; assumption].
    cbn. destruct (decide (id0 = id)) as [->|Hne].
    + exists (io.closeWrite ps0 e). split; [|reflexivity].
      apply list_lookup_insert_eq. eapply lookup_lt_Some; eassumption.
    + exists ps. split; [|assumption]. rewrite list_lookup_insert_ne; assumption.
  - destruct (pipes s !! id0) as [ps0|] eqn:Hid0; [|exists ps; split; assumption].
    cbn. destruct (decide (id0 = id)) as [->|Hne].
    + exists (io.closeRead ps0 e). split; [|reflexivity].
      apply list_lookup_insert_eq. eapply lookup_lt_Some; eassumption.
    + exists ps. split; [|assumption]. rewrite list_lookup_insert_ne; assumption.
Qed.

Lemma run_keeps_done (A : Type) (m : Prog event A) (s : World E)
  (id : nat) (ps : io.pipe) :
  pipes s !! id = Some ps -> io.done ps = true ->
  exists ps' : io.pipe,
    pipes (final (run respond m s)) !! id = Some ps' /\ io.done ps' = true.
Proof.
  revert s ps. induction m as [a | X e k IH]; intros s ps Hps Hdone; cbn.
  - exists ps. split; assumption.
  - destruct (step_keeps_done e s id Hps Hdone) as (ps1 & Hps1 & Hdone1).
    destruct (step respond e s) as [[v|] s1]; cbn in *.
    + apply (IH v s1 ps1); assumption.
    + exists ps1. split; assumption.
Qed.

Lemma step_Conn_Read_pipes (c : net.Conn) (n : nat) (s : World E) :
  pipes (snd (step respond (Conn_Read c n) s)) = pipes s.
Proof. unfold step. destruct (respond _ (outside s)). reflexivity. Qed.

Lemma step_Conn_Write_pipes (c : net.Conn) (p : bytes) (s : World E) :
  pipes (snd (step respond (Conn_Write c p) s)) = pipes s.
Proof. unfold step. destruct (respond _ (outside s)). reflexivity. Qed.

Lemma Pipe_Write_closed (id : nat) (p : bytes) (s : World E) (ps : io.pipe) :
  pipes s !! id = Some ps -> io.done ps = true ->
  fst (step respond (Pipe_Write id p) s) = Some (0%Z, Some (io.writeCloseError ps)).
Proof.
  intros Hps Hdone. unfold step. rewrite Hps, Hdone. unfold io.write.
  rewrite Hdone. reflexivity.
Qed.

(** X5.  Once the observer has closed the read ends of the two pipes, the
    wrapped connection stays broken, whatever is done in between: every
    Read for which the socket returns at least one byte returns a count of
    0 with an error, the bytes having left the socket and the inbound sink
    having none of them; every Write that the socket takes whole returns a
    count of 0 with an error, although all of [p] crossed the socket. *)
Theorem closed_pipes_break_the_connection
  (A : Type) (m : Prog event A) (conn : net.Conn) (pIn pOut : nat) (size : nat)
  (data p : bytes) (err : error) (psIn psOut : io.pipe) (s s1 t1 : World E) :
  pipes s !! pIn = Some psIn -> io.done psIn = true ->
  pipes s !! pOut = Some psOut -> io.done psOut = true ->
  let s' := final (run respond m s) in
  step respond (Conn_Read conn size) s' = (Some (data, err), s1) ->
  data <> [] ->
  step respond (Conn_Write conn p) s' = (Some (len p, None), t1) ->
  let c := TeeConn conn (io.PipeWriter pIn) (io.PipeWriter pOut) in
  let rd := run respond (teeConn_Read c size) s' in
  let wr := run respond (teeConn_Write c p) s' in
  (exists e : errval,
     outcome rd = Some {| filled := data; n_read := 0; err_read := Some e |}) /\
  wire_in conn (trace rd) = data /\
  sunk (io.PipeWriter pIn) (trace rd) = [] /\
  (exists e : errval, outcome wr = Some (0%Z, Some e)) /\
  wire_out conn (trace wr) = p /\
  sunk (io.PipeWriter pOut) (trace wr) = [].
Proof.
  intros HpIn HdIn HpOut HdOut s' Hread Hdata Hwrite c rd wr. subst c rd wr.
  destruct (run_keeps_done m s pIn HpIn HdIn) as (psIn' & HpIn' & HdIn').
  destruct (run_keeps_done m s pOut HpOut HdOut) as (psOut' & HpOut' & HdOut').
  fold s' in HpIn', HpOut'.
  pose proof (step_Conn_Read_pipes conn size s') as Hp1.
  pose proof (step_Conn_Write_pipes conn p s') as Hp2.
  rewrite Hread in Hp1. rewrite Hwrite in Hp2. cbn [snd] in Hp1, Hp2.
  rewrite <- Hp1 in HpIn'. rewrite <- Hp2 in HpOut'.
  pose proof (Pipe_Write_closed pIn data s1 HpIn' HdIn') as H1.
  pose proof (Pipe_Write_closed pOut p t1 HpOut' HdOut') as H2.
  rewrite teeConn_Read_run, Hread, (len_positive Hdata).
  rewrite teeConn_Write_run, Hwrite, Z.eqb_refl. cbn [Sink_Write].
  destruct (step respond (Pipe_Write pIn data) s1) as [x1 s2].
  destruct (step respond (Pipe_Write pOut p) t1) as [x2 t2].
  cbn [fst] in H1, H2. subst x1 x2. cbn [outcome trace].
  split; [eexists; reflexivity|].
  unfold wire_in, wire_out, sunk. cbn. rewrite !decide_True by reflexivity.
  rewrite !app_nil_r. rewrite (upto_whole (n := len p)) by lia.
  repeat split. eexists; reflexivity.
Qed.

(** ** Hijacks in a row *)

Lemma Hijack_returns_fresh_pipes
  (h : callbackHijacker) (s : World E) (c : Conn_value) (buf : ReadWriter) :
  outcome (run respond (callbackHijacker_Hijack h) s) = Some (c, buf, None) ->
  (exists conn : net.Conn,
     c = Tee (TeeConn conn (io.PipeWriter (length (pipes s)))
                (io.PipeWriter (S (length (pipes s)))))) /\
  length (pipes (final (run respond (callbackHijacker_Hijack h) s))) =
    S (S (length (pipes s))).
Proof.
  rewrite callbackHijacker_Hijack_run.
  pose proof (step_RW_Hijack_pipes (hijacker h) s) as Hpipes.
  destruct (step respond (RW_Hijack (hijacker h)) s) as [[[[conn buf'] [e|]]|] s1];
    cbn [outcome]; try discriminate.
  cbn [snd] in Hpipes. cbv zeta. rewrite Hpipes.
  match goal with
  | |- context [step respond ?call ?w0] =>
      pose proof (step_Call_OnHijacked_pipes (callback h) (request h)
                    (io.PipeReader (length (pipes s)))
                    (io.PipeReader (S (length (pipes s)))) w0) as Hcb;
      destruct (step respond call w0) as [[[]|] s4]
  end; cbn [outcome trace final snd pipes] in *; [|discriminate].
  intros Hres. inversion Hres; subst. split.
  - exists conn. reflexivity.
  - rewrite Hcb, length_app. cbn [length]. lia.
Qed.

(** X6.  Two hijacks never share a pipe.  When two adapters are hijacked
    one after the other, with any work on the first connection in between,
    and both hijacks succeed, the four sinks of the two wrappers are the
    write ends of four different pipes, none of which existed before. *)
Theorem hijacks_do_not_share_pipes
  (h1 h2 : callbackHijacker) (ops : list connop) (s : World E)
  (c1 c2 : Conn_value) (b1 b2 : ReadWriter) :
  outcome (run respond (two_hijacks h1 h2 ops) s) =
    Some ((c1, b1, None), (c2, b2, None)) ->
  exists (conn1 conn2 : net.Conn) (p1 p2 p3 p4 : nat),
    c1 = Tee (TeeConn conn1 (io.PipeWriter p1) (io.PipeWriter p2)) /\
    c2 = Tee (TeeConn conn2 (io.PipeWriter p3) (io.PipeWriter p4)) /\
    NoDup [p1; p2; p3; p4] /\
    Forall (fun p => pipes s !! p = None) [p1; p2; p3; p4].
Proof.
  unfold two_hijacks. rewrite run_bind.
  destruct (outcome (run respond (callbackHijacker_Hijack h1) s))
    as [[[c1' b1'] e1]|] eqn:H1; cbn [outcome]; [|discriminate].
  rewrite run_bind.
  set (s1 := final (run respond (callbackHijacker_Hijack h1) s)) in *.
  set (mid := match (c1', b1', e1) with
              | (Tee t, _, None) => session t ops
              | _ => Ret tt
              end).
  assert (length (pipes (final (run respond mid s1))) = length (pipes s1)) as Hmid.
  { apply run_untapped_length. subst mid.
    destruct c1'; [apply only_Ret|]. destruct e1; [apply only_Ret|].
    apply session_untapped. }
  destruct (outcome (run respond mid s1)) as [[]|]; cbn [outcome final];
    [|discriminate].
  rewrite run_bind.
  destruct (outcome (run respond (callbackHijacker_Hijack h2) (final (run respond mid s1))))
    as [[[c2' b2'] e2]|] eqn:H2; cbn [outcome]; [|discriminate].
  intros Hres. inversion Hres; subst. clear Hres.
  destruct (Hijack_returns_fresh_pipes h1 s H1) as ((conn1 & ->) & Hlen1).
  destruct (Hijack_returns_fresh_pipes h2 _ H2) as ((conn2 & ->) & _).
  fold s1 in Hlen1. rewrite Hmid, Hlen1.
  exists conn1, conn2, (length (pipes s)), (S (length (pipes s))),
    (S (S (length (pipes s)))), (S (S (S (length (pipes s))))).
  split; [reflexivity|]. split; [reflexivity|]. split.
  - repeat (apply NoDup_cons; split; [rewrite ?list_elem_of_In; cbn; lia|]).
    apply NoDup_nil. trivial.
  - repeat (apply Forall_cons; split; [apply lookup_ge_None; lia|]).
    apply Forall_nil. trivial.
Qed.

(** X7.  A callback that does not return strands the connection.  When the
    underlying Hijack has succeeded and the callback never returns, the
    adapter's Hijack never returns either: the server has given the
    connection away, two pipes have been made, and the handler gets
    nothing. *)
Theorem stuck_callback_strands_connection
  (h : callbackHijacker) (s s1 : World E) (conn : net.Conn) (buf : ReadWriter) :
  step respond (RW_Hijack (hijacker h)) s = (Some (conn, buf, None), s1) ->
  fst (respond (Call_OnHijacked (callback h) (request h)
                  (io.PipeReader (length (pipes s)))
                  (io.PipeReader (S (length (pipes s))))) (outside s1)) = None ->
  let r := run respond (callbackHijacker_Hijack h) s in
  outcome r = None /\
  count_calls (@hijacks_server) (trace r) = 1 /\
  count_calls (@makes_pipe) (trace r) = 2 /\
  pipes (final r) = pipes s ++ [io.new_pipe; io.new_pipe].
Proof.
  intros Hstep Hcb r. subst r. rewrite callbackHijacker_Hijack_run.
  pose proof (step_RW_Hijack_pipes (hijacker h) s) as Hpipes.
  rewrite Hstep in *. cbn [snd] in Hpipes. cbv beta iota zeta. rewrite Hpipes.
  unfold step. cbn [outside pipes].
  destruct (respond _ (outside s1)) as [x o]. cbn [fst] in Hcb. subst x.
  cbn [outcome trace final pipes]. repeat split.
Qed.

(** ** What the middleware adds to any handler *)

Lemma count_calls_app (P : forall X : Type, event X -> bool) (t1 t2 : list entry) :
  count_calls P (t1 ++ t2) = count_calls P t1 + count_calls P t2.
Proof. unfold count_calls. rewrite filter_app, length_app. reflexivity. Qed.

Lemma taps_well_app (cb : OnHijacked) (r : Request) (t1 t2 : list entry) :
  taps_well cb r t1 -> taps_well cb r t2 -> taps_well cb r (t1 ++ t2).
Proof.
  intros (H1 & H2 & H3) (H1' & H2' & H3'). unfold taps_well.
  rewrite forallb_app, H1, H1', !count_calls_app. repeat split; lia.
Qed.

Lemma taps_well_untapped (cb : OnHijacked) (r : Request) (tr : list entry) :
  forallb (on_call (@untapped)) tr = true -> taps_well cb r tr.
Proof.
  intros Hquiet. destruct (untapped_quiet _ Hquiet) as (Hcb & Hnew & _).
  unfold taps_well. rewrite Hcb, Hnew. repeat split; [|lia].
  clear Hcb Hnew. induction tr as [|[X e x] tr IH]; [reflexivity|].
  cbn [forallb on_call] in *. apply andb_prop in Hquiet as [He Htr].
  rewrite (IH Htr), andb_true_r. unfold untapped in He.
  destruct e; try reflexivity. discriminate.
Qed.

Lemma Hijack_taps_well (w : ServerWriter) (r : Request) (cb : OnHijacked)
  (h : callbackHijacker) (s : World E) :
  CallbackHijacker w r cb = Adapted h ->
  taps_well cb r (trace (run respond (callbackHijacker_Hijack h) s)).
Proof.
  intros Hh. unfold CallbackHijacker in Hh. destruct (hijackable w); [|discriminate].
  inversion Hh. subst h. clear Hh.
  rewrite callbackHijacker_Hijack_run. cbn [hijacker request callback].
  destruct (step respond (RW_Hijack (handle w)) s) as [[[[conn buf] [e|]]|] s1];
    cbn [trace]; try (repeat split; compute; lia).
  cbv zeta. destruct (step respond _ _) as [[u|] s4]; cbn [trace app];
    unfold taps_well; cbn [forallb for_request]; rewrite !Nat.eqb_refl;
    repeat split; compute; lia.
Qed.

Lemma dispatch_taps_well (w : ServerWriter) (r : Request) (cb : OnHijacked)
  (X : Type) (c : hcall X) (s : World E) :
  taps_well cb r (trace (run respond (dispatch (CallbackHijacker w r cb) c) s)).
Proof.
  destruct (is_hijack_call c) eqn:Hc.
  - destruct c; try discriminate. cbn [dispatch].
    destruct (CallbackHijacker w r cb) as [w0|h] eqn:Hw.
    + unfold CallbackHijacker in Hw. destruct (hijackable w) eqn:Hj; [discriminate|].
      inversion Hw. subst w0. rewrite Hj. repeat split. compute. lia.
    + rewrite run_bind.
      pose proof (@Hijack_taps_well w r cb h s Hw) as Htaps.
      destruct (outcome (run respond (callbackHijacker_Hijack h) s));
        cbn [trace run]; rewrite ?app_nil_r; assumption.
  - apply taps_well_untapped, run_only, dispatch_untapped. assumption.
Qed.

(** X8.  Whatever the handler does, and whatever the world answers, in the
    run of one request through the middleware every call of a callback is
    a call of the sniffer's callback for this request, exactly two pipes
    are made per callback call, and there are no more callback calls than
    hijacks of the server's writer. *)
Theorem middleware_taps_per_hijack
  (h : Handler) (cb : OnHijacked) (w : ServerWriter) (r : Request) (s : World E) :
  let tr := trace (run respond (sniffer_ServeHTTP (Sniffer h cb) w r) s) in
  forallb (for_request cb r) tr = true /\
  count_calls (@makes_pipe) tr = 2 * count_calls (@calls_back) tr /\
  count_calls (@calls_back) tr <= count_calls (@hijacks_server) tr.
Proof.
  intros tr. subst tr. unfold sniffer_ServeHTTP, Sniffer.
  cbn [handler sniffer_callback]. change (taps_well cb r
    (trace (run respond (serve (CallbackHijacker w r cb) (h r)) s))).
  generalize (h r). intros m. revert s.
  induction m as [a | X c k IH]; intros s; cbn [serve].
  - repeat split. compute. lia.
  - rewrite run_bind. pose proof (dispatch_taps_well w r cb c s) as Hc.
    destruct (outcome (run respond (dispatch (CallbackHijacker w r cb) c) s));
      cbn [trace]; [|assumption].
    apply taps_well_app; [assumption|apply IH].
Qed.

(** ** The observer of [main] *)

Lemma observe_readLoop_turn (fuel : nat) (req : Request) (r : source) (dir : bytes)
  (d : Desk E) :
  observe respond (readLoop (S fuel) req r dir) d =
  match step respond (source_Read r 1024) (world d) with
  | (None, w) =>
      (None, {| world := w; printed := printed d; started := started d |})
  | (Some (data, Some e), w) =>
      (Some true,
       {| world := w; printed := printed d ++ [Println e]; started := started d |})
  | (Some (data, None), w) =>
      observe respond (readLoop fuel req r dir)
        {| world := w; printed := printed d ++ [Printf dir req data];
           started := started d |}
  end.
Proof.
  cbn [readLoop bind trigger observe]. unfold ostep at 1.
  destruct (step respond (source_Read r 1024) (world d)) as [[[data [e|]]|] w];
    reflexivity.
Qed.

(** X9.  [readLoop] returns at the first Read that reports an error, and
    not before.  When the successive Reads return the chunks [ds] without
    error and the next one returns an error [e], the function returns
    after having logged one line per chunk, in order, each with the
    direction and the request, and then the error.  Bytes that the failing
    Read returned together with its error are not logged.  After as many
    turns as there are chunks it is still looping, with exactly their lines
    logged. *)
Theorem readLoop_logs_until_error
  (fuel : nat) (req : Request) (r : source) (dir : bytes)
  (ds : list bytes) (d : bytes) (e : errval) (s s1 s2 : World E)
  (l : list line) (t : list (Request * io.Reader * bytes)) :
  yields respond r s ds s1 ->
  step respond (source_Read r 1024) s1 = (Some (d, Some e), s2) ->
  length ds < fuel ->
  observe respond (readLoop fuel req r dir)
    {| world := s; printed := l; started := t |} =
    (Some true,
     {| world := s2; printed := l ++ map (Printf dir req) ds ++ [Println e];
        started := t |}) /\
  observe respond (readLoop (length ds) req r dir)
    {| world := s; printed := l; started := t |} =
    (Some false,
     {| world := s1; printed := l ++ map (Printf dir req) ds; started := t |}).
Proof.
  intros Hyields. revert fuel l.
  induction Hyields as [s | s s1 s' c cs Hstep Hrest IH]; intros fuel l Hlast Hfuel.
  - destruct fuel as [|fuel]; [cbn in Hfuel; lia|]. split.
    + rewrite observe_readLoop_turn. cbn [world printed started].
      rewrite Hlast. reflexivity.
    + cbn. rewrite app_nil_r. reflexivity.
  - destruct fuel as [|fuel]; [cbn in Hfuel; lia|].
    cbn [length] in *.
    destruct (IH fuel (l ++ [Printf dir req c]) Hlast ltac:(lia)) as [IH1 IH2].
    rewrite !observe_readLoop_turn. cbn [world printed started].
    rewrite Hstep, IH1, IH2. cbn [map]. rewrite <- !app_assoc. split; reflexivity.
Qed.





(** X11.  The directions are labelled as they flow.  After a successful
    hijack through the adapter made for [w], [r] and [cb], the callback has
    been called with the read ends of two pipes; run on those arguments,
    the callback of [main] returns at once, logs nothing, touches nothing
    and starts two [readLoop]s for the request [r]: one labelled "<" on
    the pipe that is the sink of the wrapper's Reads, one labelled ">" on
    the pipe that is the sink of its Writes. *)
Theorem main_labels_directions
  (w : ServerWriter) (r : Request) (cb : OnHijacked) (h : callbackHijacker)
  (s : World E) (c : Conn_value) (buf : ReadWriter) (d : Desk E) :
  CallbackHijacker w r cb = Adapted h ->
  outcome (run respond (callbackHijacker_Hijack h) s) = Some (c, buf, None) ->
  exists (t : teeConn) (pIn pOut : nat),
    c = Tee t /\
    io.w (reader t) = io.PipeWriter pIn /\
    io.writers (writer t) = [io.ConnW (Conn t); io.SinkW (io.PipeWriter pOut)] /\
    In (Entry (Call_OnHijacked cb r (io.PipeReader pIn) (io.PipeReader pOut))
          (Some tt))
       (trace (run respond (callbackHijacker_Hijack h) s)) /\
    observe respond (main_callback r (io.PipeReader pIn) (io.PipeReader pOut)) d =
      (Some tt,
       {| world := world d; printed := printed d;
          started := started d ++ [(r, io.PipeReader pIn, ["<"]%byte);
                                   (r, io.PipeReader pOut, [">"]%byte)] |}).
Proof.
  intros Hh. unfold CallbackHijacker in Hh. destruct (hijackable w); [|discriminate].
  inversion Hh. subst h. clear Hh.
  rewrite callbackHijacker_Hijack_run. cbn [hijacker request callback].
  destruct (step respond (RW_Hijack (handle w)) s) as [[[[conn buf'] [e|]]|] s1];
    cbn [outcome]; try discriminate.
  cbv zeta. destruct (step respond _ _) as [[[]|] s4]; cbn [outcome trace];
    [|discriminate].
  intros Hres. inversion Hres; subst. clear Hres.
  eexists _, (length (pipes s1)), (S (length (pipes s1))).
  split; [reflexivity|]. split; [reflexivity|]. split; [reflexivity|]. split.
  - apply in_or_app. right. left. reflexivity.
  - cbn. rewrite <- app_assoc. reflexivity.
Qed.

(** ** The text of a data line *)

Lemma unhex_hex_byte (b : byte) (rest : bytes) :
  unhex (hex_byte b ++ rest) = b :: unhex rest.
Proof. destruct b; reflexivity. Qed.

Lemma unhex_hex (data : bytes) : unhex (hex data) = data.
Proof.
  induction data as [|b data IH]; [reflexivity|].
  unfold hex in *. cbn [flat_map]. rewrite unhex_hex_byte, IH. reflexivity.
Qed.

(** X12.  The log loses nothing.  The text logged for a chunk has two
    hexadecimal digits per byte, and for one direction and one remote
    address two chunks give the same text only if they are the same
    bytes. *)
Theorem message_determines_bytes (dir addr a b : bytes) :
  message dir addr a = message dir addr b ->
  a = b /\ length (hex a) = 2 * length a.
Proof.
  unfold message. intros Heq.
  apply app_inv_head in Heq. apply app_inv_head in Heq.
  apply app_inv_head in Heq. apply app_inv_head in Heq.
  apply app_inv_tail in Heq. split.
  - rewrite <- (unhex_hex a), <- (unhex_hex b), Heq. reflexivity.
  - clear. induction a as [|c a IH]; [reflexivity|].
    unfold hex in *. cbn [flat_map hex_byte app length]. rewrite IH. lia.
Qed.

End Facts.

(** * Concrete runs *)

(** C1: the sentence as the specification has it fails on a short write.
    The socket takes the first byte of "OK" and says so; the wrapper's Write
    returns; one byte has crossed the socket and the outbound sink has seen
    none. *)
Lemma fidelity_fails_on_short_write :
  let r := run scripted (session tee0 [Op_Write ["O"; "K"]%byte])
             (hijacked short_socket) in
  outcome r = Some tt /\
  wire_out 7 (trace r) = ["O"]%byte /\
  sunk (io.PipeWriter 1) (trace r) = [] /\
  sunk (io.PipeWriter 1) (trace r) <> wire_out 7 (trace r).
Proof. repeat split. discriminate. Qed.

Lemma tee_fidelity_witness :
  let tr := trace (run scripted
                     (session tee0 [Op_Read 1024; Op_Read 1; Op_Read 1;
                                    Op_Write ["O"; "K"]%byte; Op_Close])
                     (hijacked trickle)) in
  io.PipeWriter 0 <> io.PipeWriter 1 /\
  forallb clean tr = true /\
  (sunk (io.PipeWriter 0) tr = wire_in 7 tr /\
   sunk (io.PipeWriter 1) tr = wire_out 7 tr) /\
  wire_in 7 tr = ["H"; "I"]%byte /\ wire_out 7 tr = ["O"; "K"]%byte.
Proof.
  cbv zeta. split; [discriminate|]. split; [reflexivity|]. split.
  - apply (@tee_fidelity _ scripted 7 (io.PipeWriter 0) (io.PipeWriter 1));
      [discriminate|reflexivity].
  - split; reflexivity.
Defined.

(** C2: the sentence as the specification has it fails when the observer
    has closed its read ends.  The socket's Read succeeds with "HI" and nil,
    the Write to the inbound pipe fails, and the wrapper's Read returns
    that failure; the socket's Write takes "OK" whole, the Write to the
    outbound pipe fails, and the wrapper's Write returns that failure. *)
Lemma sink_failure_reaches_caller :
  let rd := run scripted (teeConn_Read tee0 1024) (hijacked deaf_observer) in
  let wr := run scripted (teeConn_Write tee0 ["O"; "K"]%byte)
              (hijacked deaf_observer) in
  trace rd = [Entry (Conn_Read 7 1024) (Some (["H"; "I"]%byte, None));
              Entry (Pipe_Write 0 ["H"; "I"]%byte) (Some (0%Z, Some ErrClosedPipe))] /\
  outcome rd = Some {| filled := ["H"; "I"]%byte; n_read := 0;
                       err_read := Some ErrClosedPipe |} /\
  trace wr = [Entry (Conn_Write 7 ["O"; "K"]%byte) (Some (2%Z, None));
              Entry (Pipe_Write 1 ["O"; "K"]%byte) (Some (0%Z, Some ErrClosedPipe))] /\
  outcome wr = Some (0%Z, Some ErrClosedPipe).
Proof. repeat split. Qed.

Lemma sink_failure_is_returned_witness :
  outcome (run scripted (teeConn_Read tee0 1024) (hijacked deaf_observer)) =
    Some {| filled := ["H"; "I"]%byte; n_read := 0; err_read := Some ErrClosedPipe |} /\
  outcome (run scripted (teeConn_Write tee0 ["O"; "K"]%byte) (hijacked deaf_observer)) =
    Some (0%Z, Some ErrClosedPipe).
Proof.
  eapply (@sink_failure_is_returned _ scripted 7 (io.PipeWriter 0) (io.PipeWriter 1)
            1024 _ ["O"; "K"]%byte _ _ _ _
            (hijacked deaf_observer) _ _ (hijacked deaf_observer) _ _).
  - reflexivity.
  - discriminate.
  - reflexivity.
  - reflexivity.
  - reflexivity.
Defined.

Lemma Hijack_calls_back_once_witness :
  let r := run scripted (callbackHijacker_Hijack adapter0) (start calm) in
  CallbackHijacker full_writer 11 5 = Adapted adapter0 /\
  outcome r = Some (Tee tee0, 0, None) /\
  count_calls (@calls_back) (trace r) = 1 /\
  count_calls (@moves_bytes) (trace r) = 0 /\
  pipes (final r) = [io.new_pipe; io.new_pipe].
Proof.
  cbv zeta. split; [reflexivity|]. split; [reflexivity|].
  destruct (@Hijack_calls_back_once _ scripted full_writer 11 5 adapter0
              (start calm) (Tee tee0) 0 eq_refl eq_refl)
    as (conn & _ & _ & _ & Hcount & Hbytes & _ & _ & _ & Hpipes).
  repeat split; assumption.
Defined.

Lemma Hijack_failure_unchanged_witness :
  let r := run scripted (callbackHijacker_Hijack adapter0) (start no_hijack) in
  step scripted (RW_Hijack 3) (start no_hijack) =
    (Some (0, 0, Some (ErrOther 1)), start no_hijack) /\
  r = {| outcome := Some (Raw 0, 0, Some (ErrOther 1)); final := start no_hijack;
         trace := [Entry (RW_Hijack 3) (Some (0, 0, Some (ErrOther 1)))] |} /\
  count_calls (@makes_pipe) (trace r) = 0 /\
  count_calls (@calls_back) (trace r) = 0 /\
  pipes (final r) = [].
Proof.
  cbv zeta. split; [reflexivity|].
  apply (@Hijack_failure_unchanged _ scripted adapter0 (start no_hijack)
           (start no_hijack) 0 0 (ErrOther 1)).
  reflexivity.
Defined.

Lemma CallbackHijacker_passthrough_witness :
  hijackable bare_writer = false /\
  CallbackHijacker bare_writer 11 5 = Plain bare_writer /\
  is_Hijacker (CallbackHijacker bare_writer 11 5) = false.
Proof.
  split; [reflexivity|].
  destruct (@CallbackHijacker_passthrough _ scripted bare_writer 11 5 (start calm)
              eq_refl)
    as (Hsame & Hnot & _).
  split; assumption.
Defined.







Lemma short_write_starves_sink_witness :
  let r := run scripted (teeConn_Write tee0 ["O"; "K"]%byte) (hijacked short_socket) in
  (["O"; "K"]%byte <> [] /\ (1 < len ["O"; "K"]%byte)%Z) /\
  outcome r = Some (1%Z, Some ErrShortWrite) /\
  trace r = [Entry (Conn_Write 7 ["O"; "K"]%byte) (Some (1%Z, None))] /\
  count_calls (@writes_sink) (trace r) = 0 /\
  handed (io.PipeWriter 1) (trace r) = [] /\
  sunk (io.PipeWriter 1) (trace r) = [] /\
  wire_out 7 (trace r) = upto 1 ["O"; "K"]%byte /\
  ((0 < 1)%Z -> wire_out 7 (trace r) <> sunk (io.PipeWriter 1) (trace r)).
Proof.
  cbv zeta. split; [split; [discriminate|reflexivity]|].
  apply (@short_write_starves_sink _ scripted 7 (io.PipeWriter 0) (io.PipeWriter 1)
           ["O"; "K"]%byte 1 (hijacked short_socket) (hijacked short_socket)).
  - discriminate.
  - reflexivity.
  - reflexivity.
Defined.

(** * Concrete runs of the further properties *)

Lemma short_count_of_sink_witness :
  let rd := run scripted (teeConn_Read tee_ext 1024) (start short_sink) in
  let wr := run scripted (teeConn_Write tee_ext ["O"; "K"]%byte) (start short_sink) in
  (0 <= 1 < len ["H"; "I"]%byte)%Z /\ 1%Z <> len ["O"; "K"]%byte /\
  outcome rd = Some {| filled := ["H"; "I"]%byte; n_read := 2; err_read := None |} /\
  sunk (io.ExtWriter 0) (trace rd) = ["H"]%byte /\
  length (sunk (io.ExtWriter 0) (trace rd)) < length (wire_in 7 (trace rd)) /\
  outcome wr = Some (1%Z, Some ErrShortWrite).
Proof.
  cbv zeta. split; [unfold len; simpl; lia|]. split; [discriminate|].
  apply (@short_count_of_sink _ scripted 7 (io.ExtWriter 0) (io.ExtWriter 1) 1024
           ["H"; "I"]%byte ["O"; "K"]%byte None 1 1
           (start short_sink)
           (snd (step scripted (Conn_Read 7 1024) (start short_sink)))
           (snd (step scripted (Conn_Read 7 1024) (start short_sink)))
           (start short_sink) (start short_sink) (start short_sink)).
  - reflexivity.
  - reflexivity.
  - unfold len. simpl. lia.
  - reflexivity.
  - reflexivity.
  - discriminate.
Defined.

Lemma stalled_observer_blocks_witness :
  let rd := run scripted (teeConn_Read tee0 1024) (hijacked stalled_observer) in
  let wr := run scripted (teeConn_Write tee0 []) (hijacked stalled_observer) in
  outcome rd = None /\
  trace rd = [Entry (Conn_Read 7 1024) (Some (["H"; "I"]%byte, None));
              Entry (Pipe_Write 0 ["H"; "I"]%byte) None] /\
  outcome wr = None /\
  trace wr = [Entry (Conn_Write 7 []) (Some (len [], None));
              Entry (Pipe_Write 1 []) None].
Proof.
  cbv zeta.
  apply (@stalled_observer_blocks _ scripted 7 0 1 1024 ["H"; "I"]%byte [] None
           io.new_pipe io.new_pipe
           (hijacked stalled_observer)
           (snd (step scripted (Conn_Read 7 1024) (hijacked stalled_observer)))
           (hijacked stalled_observer) (hijacked stalled_observer)).
  - reflexivity.
  - discriminate.
  - reflexivity.
  - reflexivity.
  - reflexivity.
  - reflexivity.
  - reflexivity.
  - reflexivity.
  - reflexivity.
Defined.

Lemma sinks_are_offered_socket_bytes_witness :
  let tr := trace (run scripted
                     (session tee0 [Op_Write ["O"; "K"]%byte; Op_Read 1024; Op_Close])
                     (hijacked short_socket)) in
  io.PipeWriter 0 <> io.PipeWriter 1 /\
  handed (io.PipeWriter 0) tr = wire_in 7 tr /\
  handed (io.PipeWriter 1) tr `sublist_of` wire_out 7 tr.
Proof.
  cbv zeta. split; [discriminate|].
  apply (@sinks_are_offered_socket_bytes _ scripted 7 (io.PipeWriter 0)
           (io.PipeWriter 1)).
  discriminate.
Defined.

Lemma closed_pipes_break_the_connection_witness :
  let s' := final (run scripted (session tee0 [Op_Close]) (abandoned calm)) in
  let rd := run scripted (teeConn_Read tee0 1024) s' in
  let wr := run scripted (teeConn_Write tee0 ["O"; "K"]%byte) s' in
  io.done (io.closeRead io.new_pipe None) = true /\
  outcome rd = Some {| filled := ["H"; "I"]%byte; n_read := 0;
                       err_read := Some ErrClosedPipe |} /\
  outcome wr = Some (0%Z, Some ErrClosedPipe) /\
  wire_in 7 (trace rd) = ["H"; "I"]%byte /\
  sunk (io.PipeWriter 0) (trace rd) = [] /\
  wire_out 7 (trace wr) = ["O"; "K"]%byte /\
  sunk (io.PipeWriter 1) (trace wr) = [].
Proof.
  cbv zeta. split; [reflexivity|]. split; [reflexivity|]. split; [reflexivity|].
  destruct (@closed_pipes_break_the_connection _ scripted unit
              (session tee0 [Op_Close]) 7 0 1 1024 ["H"; "I"]%byte
              ["O"; "K"]%byte None
              (io.closeRead io.new_pipe None) (io.closeRead io.new_pipe None)
              (abandoned calm)
              (snd (step scripted (Conn_Read 7 1024) (abandoned calm)))
              (abandoned calm)
              eq_refl eq_refl eq_refl eq_refl eq_refl ltac:(discriminate) eq_refl)
    as (_ & H1 & H2 & _ & H3 & H4).
  repeat split; assumption.
Defined.

Lemma hijacks_do_not_share_pipes_witness :
  outcome (run scripted (two_hijacks adapter0 adapter1 [Op_Read 1024]) (start calm)) =
    Some ((Tee tee0, 0, None), (Tee (TeeConn 7 (io.PipeWriter 2) (io.PipeWriter 3)), 0, None)) /\
  exists (conn1 conn2 : net.Conn) (p1 p2 p3 p4 : nat),
    Tee tee0 = Tee (TeeConn conn1 (io.PipeWriter p1) (io.PipeWriter p2)) /\
    Tee (TeeConn 7 (io.PipeWriter 2) (io.PipeWriter 3)) =
      Tee (TeeConn conn2 (io.PipeWriter p3) (io.PipeWriter p4)) /\
    NoDup [p1; p2; p3; p4] /\
    Forall (fun p => pipes (start calm) !! p = None) [p1; p2; p3; p4].
Proof.
  split; [reflexivity|].
  apply (@hijacks_do_not_share_pipes _ scripted adapter0 adapter1 [Op_Read 1024]
           (start calm) _ _ 0 0).
  reflexivity.
Defined.

Lemma stuck_callback_strands_connection_witness :
  let r := run scripted_stuck_callback (callbackHijacker_Hijack adapter0) (start calm) in
  outcome r = None /\
  count_calls (@hijacks_server) (trace r) = 1 /\
  count_calls (@makes_pipe) (trace r) = 2 /\
  pipes (final r) = [io.new_pipe; io.new_pipe].
Proof.
  apply (@stuck_callback_strands_connection _ scripted_stuck_callback adapter0
           (start calm) (start calm) 7 0).
  - reflexivity.
  - reflexivity.
Defined.

Lemma readLoop_logs_until_error_witness :
  observe scripted (readLoop 3 11 (ConnSource 7) ["<"]%byte)
    {| world := start last_gasp; printed := []; started := [] |} =
    (Some true,
     {| world := start {| incoming := []; socket_write := Whole; ext_write := Whole;
                          consumer := Some io.Drained; hijack := (7, 0, None) |};
        printed := [Printf ["<"]%byte 11 ["H"]%byte; Printf ["<"]%byte 11 ["I"]%byte;
                    Println EOF];
        started := [] |}).
Proof.
  pose (s1 := snd (step scripted (Conn_Read 7 1024) (start last_gasp))).
  pose (s2 := snd (step scripted (Conn_Read 7 1024) s1)).
  pose (s3 := snd (step scripted (Conn_Read 7 1024) s2)).
  assert (yields scripted (ConnSource 7) (start last_gasp)
            [["H"]%byte; ["I"]%byte] s2) as Hyields.
  { apply yields_cons with (s1 := s1); [reflexivity|].
    apply yields_cons with (s1 := s2); [reflexivity|]. apply yields_nil. }
  assert (length [["H"]%byte; ["I"]%byte] < 3) as Hfuel by (simpl; lia).
  exact (proj1 (@readLoop_logs_until_error _ scripted 3 11 (ConnSource 7) ["<"]%byte
                  [["H"]%byte; ["I"]%byte] ["!"]%byte EOF
                  (start last_gasp) s2 s3 [] [] Hyields eq_refl Hfuel)).
Defined.


Lemma main_labels_directions_witness :
  CallbackHijacker full_writer 11 5 = Adapted adapter0 /\
  outcome (run scripted (callbackHijacker_Hijack adapter0) (start calm)) =
    Some (Tee tee0, 0, None) /\
  exists (t : teeConn) (pIn pOut : nat),
    Tee tee0 = Tee t /\
    io.w (reader t) = io.PipeWriter pIn /\
    io.writers (writer t) = [io.ConnW (Conn t); io.SinkW (io.PipeWriter pOut)] /\
    In (Entry (Call_OnHijacked 5 11 (io.PipeReader pIn) (io.PipeReader pOut)) (Some tt))
       (trace (run scripted (callbackHijacker_Hijack adapter0) (start calm))) /\
    observe scripted (main_callback 11 (io.PipeReader pIn) (io.PipeReader pOut))
      {| world := start calm; printed := []; started := [] |} =
      (Some tt,
       {| world := start calm; printed := [];
          started := [(11, io.PipeReader pIn, ["<"]%byte);
                      (11, io.PipeReader pOut, [">"]%byte)] |}).
Proof.
  split; [reflexivity|]. split; [reflexivity|].
  apply (@main_labels_directions _ scripted full_writer 11 5 adapter0 (start calm)
           (Tee tee0) 0 {| world := start calm; printed := []; started := [] |}
           eq_refl eq_refl).
Defined.

Lemma message_determines_bytes_witness :
  message ["<"]%byte ["p"]%byte ["H"; "I"]%byte =
    ["<"; " "; "p"; ":"; " "; "4"; "8"; "4"; "9"]%byte ++ [x0a] /\
  length (hex ["H"; "I"]%byte) = 4.
Proof.
  split; [reflexivity|].
  exact (proj2 (@message_determines_bytes ["<"]%byte ["p"]%byte
                  ["H"; "I"]%byte ["H"; "I"]%byte eq_refl)).
Defined.
